(** * Commit planning engine of open-plugins: split analyzer and commit planner

    A shallow embedding of
    - [atomic-commit/.scripts/commit-planner.py] (dependency graph
      construction, Kahn-style sequencing with a type-priority queue,
      annotated plan), and
    - [atomic-commit/.scripts/split-analyzer.py] (type and scope inference
      per changed file, the four split checks),
    followed by the properties of the planning core checked against it. *)

From Stdlib Require Import ZArith Ascii String List Lia.
From stdpp Require Import base option list relations sorting gmap strings pretty.

Local Open Scope string_scope.

(** ** Python values and control flow *)

Module Py.

(** Exceptions the modelled code can raise. *)
Inductive exn : Type :=
| TypeError
| ValueError
| IndexError.

(** How a call ends: a normal return, an uncaught exception, [sys.exit]
    with its status and the text printed on stderr just before, or a loop
    model whose fuel ran out (shown below never to be the case). *)
Inductive outcome (A : Type) : Type :=
| Return (a : A)
| Raise (e : exn)
| SysExit (code : Z) (stderr : string)
| Unfinished.

Arguments Return {A} a.
Arguments Raise {A} e.
Arguments SysExit {A} code stderr.
Arguments Unfinished {A}.

Definition bind {A B : Type} (m : outcome A) (k : A -> outcome B) : outcome B :=
  match m with
  | Return a => k a
  | Raise e => Raise e
  | SysExit c s => SysExit c s
  | Unfinished => Unfinished
  end.

(** A [for] loop whose body may raise. *)
Fixpoint for_each {A S : Type} (body : S -> A -> outcome S) (xs : list A) (s : S)
  : outcome S :=
  match xs with
  | [] => Return s
  | x :: xs' => bind (body s x) (for_each body xs')
  end.

(** [list(enumerate(xs))] *)
Definition enumerate {A : Type} (xs : list A) : list (nat * A) :=
  combine (seq 0 (length xs)) xs.

(** *** Strings *)

Definition LF : ascii := Eval cbv in ascii_of_nat 10.

(** [s.startswith(p)] *)
Definition startswith (s p : string) : bool := String.prefix p s.

(** [needle in hay] for strings *)
Fixpoint contains (hay needle : string) : bool :=
  String.prefix needle hay ||
  match hay with
  | EmptyString => false
  | String _ hay' => contains hay' needle
  end.

(** [s.endswith(suffix)] *)
Definition endswith (s suffix : string) : bool :=
  let n := String.length s in
  let m := String.length suffix in
  (m <=? n)%nat && String.eqb (String.substring (n - m) m s) suffix.

(** [s.split(sep)] for a separator of one character. *)
Fixpoint split (sep : ascii) (s : string) : list string :=
  match s with
  | EmptyString => [EmptyString]
  | String c s' =>
      if Ascii.eqb c sep then EmptyString :: split sep s'
      else match split sep s' with
           | [] => [String c EmptyString]
           | w :: ws => String c w :: ws
           end
  end.

(** [sep.join(parts)] *)
Fixpoint join (sep : string) (parts : list string) : string :=
  match parts with
  | [] => EmptyString
  | [p] => p
  | p :: ps => p ++ sep ++ join sep ps
  end.

(** [s.lower()], on ASCII letters. *)
Definition lower_char (c : ascii) : ascii :=
  let n := nat_of_ascii c in
  if (65 <=? n)%nat && (n <=? 90)%nat then ascii_of_nat (n + 32) else c.

Fixpoint lower (s : string) : string :=
  match s with
  | EmptyString => EmptyString
  | String c s' => String (lower_char c) (lower s')
  end.

(** [s.replace(old, new)] for a non-empty [old]: occurrences are replaced
    from the left and do not overlap. [skip] counts the characters of the
    occurrence just replaced that are still to be dropped. *)
Fixpoint replace_from (old new : string) (skip : nat) (s : string) : string :=
  match s with
  | EmptyString => EmptyString
  | String c s' =>
      match skip with
      | S k => replace_from old new k s'
      | O =>
          if String.prefix old s
          then new ++ replace_from old new (String.length old - 1) s'
          else String c (replace_from old new 0 s')
      end
  end.

Definition replace (s old new : string) : string := replace_from old new 0 s.

(** [any(p(x) for x in xs)] *)
Definition any {A : Type} (p : A -> bool) (xs : list A) : bool := existsb p xs.

(** *** Insertion-ordered dictionaries of lists ([defaultdict(list)]) *)

(** [d[k].append(v)]: a new key goes to the end. *)
Fixpoint dict_append (d : list (string * list string)) (k v : string)
  : list (string * list string) :=
  match d with
  | [] => [(k, [v])]
  | (k', vs) :: d' =>
      if String.eqb k' k then (k', (vs ++ [v])%list) :: d'
      else (k', vs) :: dict_append d' k v
  end.

(** [d.keys()], in insertion order. *)
Definition keys (d : list (string * list string)) : list string := map fst d.

(** [k in d] *)
Definition has_key (d : list (string * list string)) (k : string) : bool :=
  existsb (String.eqb k) (keys d).

(** *** Dictionaries of sets keyed by index ([defaultdict(set)]) *)

(** [d[k]]: a missing key is created with the empty set, so reading
    returns the value together with the dictionary after the read. *)
Definition getitem (d : gmap nat (gset nat)) (k : nat)
  : gset nat * gmap nat (gset nat) :=
  match d !! k with
  | Some s => (s, d)
  | None => (∅, <[k := ∅]> d)
  end.

End Py.

Import Py.

#[global] Instance outcome_ret : MRet outcome := @Return.
#[global] Instance outcome_bind : MBind outcome := fun A B k m => Py.bind m k.

(** ** commit-planner.py *)

Module Planner.

(** A commit suggestion, as loaded from the JSON input. [type] is read
    with [commit['type']] and is taken to be present; [scope], [subject]
    and [files] are read with [.get], [None] standing for a missing key. *)
Record Commit : Type := {
  type : string;
  scope : option string;
  subject : option string;
  files : option (list string)
}.

(** [TYPE_PRIORITY.get(t, 99)] *)
Definition TYPE_PRIORITY (t : string) : nat :=
  if String.eqb t "feat" then 1
  else if String.eqb t "fix" then 2
  else if String.eqb t "refactor" then 3
  else if String.eqb t "perf" then 4
  else if String.eqb t "test" then 5
  else if String.eqb t "docs" then 6
  else if String.eqb t "style" then 7
  else if String.eqb t "chore" then 8
  else if String.eqb t "ci" then 9
  else if String.eqb t "build" then 10
  else 99.

(** [a == b] on values that are a string or [None]. *)
Definition scope_eq (a b : option string) : bool :=
  match a, b with
  | Some x, Some y => String.eqb x y
  | None, None => true
  | _, _ => false
  end.

(** [a in b] with [b] a string: a left operand that is [None] raises. *)
Definition str_in (a : option string) (b : string) : outcome bool :=
  match a with
  | Some x => Return (contains b x)
  | None => Raise TypeError
  end.

Section WithGit.

(** [git show :<path>], the staged content of a file; [None] when the
    command fails, in which case [run_git_command] returns the empty
    string. *)
Variable git_show : string -> option string.

Definition run_git_show (path : string) : string :=
  match git_show path with
  | Some out => out
  | None => EmptyString
  end.

Definition has_import_dependency (source_file target_file : string) : bool :=
  let content := run_git_show target_file in
  let source_module :=
    replace (replace (replace (replace source_file "/" ".") ".py" EmptyString)
               ".js" EmptyString) ".ts" EmptyString in
  any (contains content)
    [ "import " ++ source_module;
      "from " ++ source_module;
      "require('" ++ source_module ].

(** Does [commit2] depend on [commit1]? The three type rules are tried in
    turn, each returning [True] when it applies, then the files of the
    two commits are compared pairwise. *)
Definition detect_dependencies (commit1 commit2 : Commit) : outcome bool :=
  if negb (String.eqb (type commit1) "test") && String.eqb (type commit2) "test"
     && scope_eq (scope commit1) (scope commit2)
  then Return true
  else
    docs_hit ←
      (if String.eqb (type commit1) "feat" && String.eqb (type commit2) "docs"
       then str_in (scope commit1) (default EmptyString (subject commit2))
       else Return false);
    if (docs_hit : bool) then Return true
    else if String.eqb (type commit1) "feat" && String.eqb (type commit2) "fix"
            && scope_eq (scope commit1) (scope commit2)
    then Return true
    else
      let files1 := default [] (files commit1) in
      let files2 := default [] (files commit2) in
      Return (any (fun file2 =>
                any (fun file1 => has_import_dependency file1 file2) files1)
              files2).

(** [graph[j].add(i)] *)
Definition add_edge (graph : gmap nat (gset nat)) (j i : nat)
  : gmap nat (gset nat) :=
  let '(s, graph1) := getitem graph j in
  <[j := s ∪ {[i]}]> graph1.

Definition build_dependency_graph (commits : list Commit)
  : outcome (gmap nat (gset nat)) :=
  for_each (fun graph '(i, commit1) =>
    for_each (fun graph '(j, commit2) =>
      if decide (i ≠ j) then
        dep ← detect_dependencies commit1 commit2;
        Return (if (dep : bool) then add_edge graph j i else graph)
      else Return graph)
      (enumerate commits) graph)
    (enumerate commits) ∅.

End WithGit.

(** *** Sequencing *)

(** The sort key of the ready queue. Every queued index comes from
    [range(len(commits))], so the lookup never misses. *)
Definition priority (commits : list Commit) (x : nat) : nat :=
  match commits !! x with
  | Some c => TYPE_PRIORITY (type c)
  | None => 99
  end.

(** [list.sort(key=...)] is a stable sort; the stable sort of a list is
    unique, here it is computed by insertion. *)
Fixpoint insert_by (key : nat -> nat) (x : nat) (l : list nat) : list nat :=
  match l with
  | [] => [x]
  | y :: l' => if (key x <=? key y)%nat then x :: y :: l' else y :: insert_by key x l'
  end.

Fixpoint sort_by (key : nat -> nat) (l : list nat) : list nat :=
  match l with
  | [] => []
  | x :: l' => insert_by key x (sort_by key l')
  end.

(** The variables of [topological_sort] that change while it runs. *)
Record sort_state : Type := {
  dependencies : gmap nat (gset nat);
  in_degree : gmap nat Z;
  queue : list nat;
  result : list nat
}.

(** [in_degree[k]] of a [defaultdict(int)] *)
Definition in_degree_get (ind : gmap nat Z) (k : nat) : Z := default 0%Z (ind !! k).

(** Lines 144-145: the in-degree of every node, read off the graph. *)
Definition init_in_degree (n : nat) (deps : gmap nat (gset nat))
  : gmap nat Z * gmap nat (gset nat) :=
  foldl (fun '(ind, d) node =>
           let '(s, d1) := getitem d node in
           (<[node := Z.of_nat (size s)]> ind, d1))
        (∅, deps) (seq 0 n).

(** Lines 162-166: one turn of the [for other_node] loop. *)
Definition update_node (node : nat) (st : sort_state) (other_node : nat) : sort_state :=
  let '(s, d1) := getitem (dependencies st) other_node in
  if decide (node ∈ s) then
    let d2 := <[other_node := s ∖ {[node]}]> d1 in
    let ind := <[other_node := (in_degree_get (in_degree st) other_node - 1)%Z]> (in_degree st) in
    {| dependencies := d2;
       in_degree := ind;
       queue := if (in_degree_get ind other_node =? 0)%Z
                then (queue st ++ [other_node])%list else queue st;
       result := result st |}
  else
    {| dependencies := d1; in_degree := in_degree st;
       queue := queue st; result := result st |}.

(** Lines 152-166: one turn of the [while queue] loop, entered with a
    non-empty queue. *)
Definition sort_turn (commits : list Commit) (st : sort_state) : sort_state :=
  match sort_by (priority commits) (queue st) with
  | [] => st
  | node :: rest =>
      foldl (update_node node)
            {| dependencies := dependencies st; in_degree := in_degree st;
               queue := rest; result := (result st ++ [node])%list |}
            (seq 0 (length commits))
  end.

(** The [while queue] loop; [None] when the fuel runs out first. *)
Fixpoint sort_loop (fuel : nat) (commits : list Commit) (st : sort_state)
  : option sort_state :=
  match queue st with
  | [] => Some st
  | _ :: _ =>
      match fuel with
      | O => None
      | S fuel' => sort_loop fuel' commits (sort_turn commits st)
      end
  end.

(** The state in which the loop is entered. *)
Definition sort_init (commits : list Commit) (deps : gmap nat (gset nat)) : sort_state :=
  let n := length commits in
  let '(ind, d) := init_in_degree n deps in
  {| dependencies := d; in_degree := ind;
     queue := filter (fun node => in_degree_get ind node = 0%Z) (seq 0 n);
     result := [] |}.

(** Every turn of the loop emits one node, so [len(commits)] turns are
    enough. *)
Definition sort_run (commits : list Commit) (deps : gmap nat (gset nat))
  : option sort_state :=
  sort_loop (length commits) commits (sort_init commits deps).

(** [topological_sort]: the order, together with the dependency
    dictionary as the call leaves it (the caller's object is updated in
    place). *)
Definition topological_sort (commits : list Commit) (deps : gmap nat (gset nat))
  : outcome (list nat * gmap nat (gset nat)) :=
  match sort_run commits deps with
  | None => Unfinished
  | Some st =>
      if decide (length (result st) ≠ length commits)
      then SysExit 1 "Error: Circular dependency detected"
      else Return (result st, dependencies st)
  end.

(** *** The annotated plan *)

(** The text of [can_execute]: ['now'] or ['after commit <k>']. *)
Inductive can_execute_note : Type :=
| now
| after_commit (k : nat).

Record PlannedCommit : Type := {
  commit : Commit;
  order : nat;
  commit_id : nat;
  original_id : nat;
  can_execute : can_execute_note
}.

(** [l.index(x)] *)
Fixpoint index (l : list nat) (x : nat) : outcome nat :=
  match l with
  | [] => Raise ValueError
  | y :: l' => if decide (y = x) then Return 0 else i ← index l' x; Return (S i)
  end.

(** [min(l)] *)
Definition py_min (l : list nat) : outcome nat :=
  match l with
  | [] => Raise ValueError
  | x :: l' => Return (foldl Nat.min x l')
  end.

Section WithGitPlan.

Variable git_show : string -> option string.

(** Lines 187-201: the entry of the plan for [commit_idx], emitted at
    0-based position [idx]. *)
Definition plan_entry (commits : list Commit) (order_ : list nat)
    (st : list PlannedCommit * gmap nat (gset nat)) (it : nat * nat)
  : outcome (list PlannedCommit * gmap nat (gset nat)) :=
  let '(sequence, dependencies_) := st in
  let '(idx, commit_idx) := it in
  match commits !! commit_idx with
  | None => Raise IndexError
  | Some c =>
      let '(deps, dependencies1) := getitem dependencies_ commit_idx in
      note ←
        (if decide (deps = ∅) then Return now
         else
           dep_ids ← for_each (fun acc d => i ← index order_ d; Return (acc ++ [i + 1])%list)
                              (elements deps) [];
           m ← py_min dep_ids;
           Return (after_commit m));
      Return ((sequence ++ [ {| commit := c; order := idx + 1;
                                commit_id := commit_idx + 1;
                                original_id := commit_idx;
                                can_execute := note |} ])%list,
              dependencies1)
  end.

Definition create_sequence (commits : list Commit) : outcome (list PlannedCommit) :=
  dependencies_ ← build_dependency_graph git_show commits;
  '(order_, dependencies1) ← topological_sort commits dependencies_;
  '(sequence, _) ← for_each (plan_entry commits order_) (enumerate order_)
                            ([], dependencies1);
  Return sequence.

End WithGitPlan.

End Planner.

(** ** split-analyzer.py *)

Module Analyzer.

(** The [metrics] dictionary of [analyze]. *)
Record Metrics : Type := {
  file_count : nat;
  types_detected : list string;
  type_counts : list (string * nat);
  scopes_detected : list string;
  scope_counts : list (string * nat);
  concerns : list string;
  threshold : Z
}.

(** Lines 61-65: the names printed by the two [git diff --name-only]
    calls, empty lines dropped. *)
Definition changed_names (staged unstaged : string) : list string :=
  (List.filter (fun l => negb (String.eqb l EmptyString)) (split LF staged) ++
   List.filter (fun l => negb (String.eqb l EmptyString)) (split LF unstaged))%list.

(** [get_changed_files] collects the names in a [set] and returns
    [list(files)]: some listing of the set without repetition, in the
    iteration order of the set, which the names alone do not fix. *)
Definition get_changed_files (staged unstaged : string) (files : list string) : Prop :=
  NoDup files ∧ ∀ f, f ∈ files ↔ f ∈ changed_names staged unstaged.

(** The [for part in parts] loop of [extract_scope_from_path]. *)
Fixpoint first_scope (parts : list string) : string :=
  match parts with
  | [] => "root"
  | part :: parts' =>
      if negb (existsb (String.eqb part)
                 ["src"; "lib"; "app"; "packages"; "tests"; "test"])
         && negb (String.eqb part ".") && negb (String.eqb part "..")
      then hd EmptyString (split "." part)
      else first_scope parts'
  end.

Definition extract_scope_from_path (file_path : string) : string :=
  first_scope (split "/" file_path).

(** Lines 103 and 123: the lines of the diff that start with [mark] but
    not with [mark] three times. *)
Definition marked_lines (mark : string) (diff : string) : list string :=
  List.filter (fun line => startswith line mark
                           && negb (startswith line (mark ++ mark ++ mark)))
              (split LF diff).

Definition detect_type_from_diff (file_path diff : string) : string :=
  if any (endswith file_path) [".md"; ".txt"; ".rst"; ".adoc"] then "docs"
  else if any (contains file_path)
            ["test/"; "tests/"; "spec/"; "__tests__"; ".test."; ".spec."] then "test"
  else if any (contains file_path)
            [".github/"; ".gitlab-ci"; "jenkins"; ".circleci"] then "ci"
  else if any (endswith file_path)
            ["package.json"; "pom.xml"; "build.gradle"; "Makefile"; "CMakeLists.txt"]
       then "build"
  else if String.eqb diff EmptyString then "chore"
  else
    let added_lines := marked_lines "+" diff in
    let added := join " " added_lines in
    if any (contains added) ["function "; "class "; "def "; "const "; "let "; "var "]
       && any (contains added) ["new "; "add"; "implement"; "create"] then "feat"
    else if any (contains (lower added))
              ["fix"; "bug"; "error"; "issue"; "null"; "undefined"] then "fix"
    else if any (contains (lower added))
              ["refactor"; "rename"; "move"; "extract"] then "refactor"
    else if any (contains (lower added))
              ["performance"; "optimize"; "cache"; "memoize"] then "perf"
    else
      let removed_lines := marked_lines "-" diff in
      if (length added_lines =? length removed_lines)%nat then "style"
      else if (length removed_lines * 2 <? length added_lines)%nat then "feat"
      else "chore".

(** [set(...)] over a sequence of lists: a list cannot be hashed, so the
    call raises on the first element; only the empty set is ever built. *)
Definition set_of_lists (xs : list (list string)) : outcome (list (list string)) :=
  match xs with
  | [] => Return []
  | _ :: _ => Raise TypeError
  end.

Definition detect_mixed_concerns (types scopes : list (string * list string))
  : outcome (list string) :=
  let has_feature := has_key types "feat" in
  let has_refactor := has_key types "refactor" in
  let has_style := has_key types "style" in
  let concerns1 :=
    if has_feature && has_refactor
    then ["Feature implementation mixed with refactoring"] else [] in
  let concerns2 :=
    if has_feature && has_style
    then (concerns1 ++ ["Feature implementation mixed with style changes"])%list
    else concerns1 in
  if has_key types "test" then
    test_scopes ← set_of_lists
      (map snd (List.filter (fun kv => contains (fst kv) "test") scopes));
    impl_scopes ← set_of_lists
      (map snd (List.filter (fun kv => negb (contains (fst kv) "test")) scopes));
    Return (if negb (bool_decide (test_scopes = impl_scopes))
               && (1 <? length impl_scopes)%nat
            then (concerns2 ++ ["Tests for multiple unrelated implementations"])%list
            else concerns2)
  else Return concerns2.

(** The texts appended to [reasons]. *)
Definition types_reason (types : list (string * list string)) : string :=
  "Multiple types detected: " ++ join ", " (keys types).

Definition scopes_reason (scopes : list (string * list string)) : string :=
  "Multiple scopes detected: " ++ join ", " (keys scopes).

Definition size_reason (nfiles : nat) (threshold_ : Z) : string :=
  "Large change: " ++ pretty nfiles ++ " files (threshold: " ++ pretty threshold_ ++ ")".

Definition concerns_reason (concerns_ : list string) : string :=
  "Mixed concerns: " ++ join "; " concerns_.

(** Checks 1 to 3 of [analyze] (lines 200-215). *)
Definition split_reasons (types scopes : list (string * list string))
    (nfiles : nat) (threshold_ : Z) : list string :=
  app (if (1 <? length types)%nat then [types_reason types] else [])
 (app (if (1 <? length scopes)%nat then [scopes_reason scopes] else [])
      (if (threshold_ <? Z.of_nat nfiles)%Z then [size_reason nfiles threshold_] else [])).

Section WithGit.

(** [git diff --cached <path>] and [git diff <path>]; [None] when the
    command fails. *)
Variables git_diff_cached git_diff : string -> option string.

(** A failing command ends in [sys.exit(2)], which the bare [except] of
    [get_file_diff] turns into the empty diff. *)
Definition get_file_diff (file_path : string) : string :=
  match git_diff_cached file_path with
  | None => EmptyString
  | Some diff =>
      if String.eqb diff EmptyString
      then match git_diff file_path with
           | None => EmptyString
           | Some diff' => diff'
           end
      else diff
  end.

(** Lines 185-193: the type and scope of one file are recorded. *)
Definition record_file (st : list (string * list string) * list (string * list string))
    (file_path : string)
  : list (string * list string) * list (string * list string) :=
  let diff := get_file_diff file_path in
  let file_type := detect_type_from_diff file_path diff in
  let scope := extract_scope_from_path file_path in
  (dict_append (fst st) file_type file_path, dict_append (snd st) scope file_path).

(** [analyze] on a fresh [SplitAnalyzer], from the list that
    [get_changed_files] returned. The metrics are [None] for the empty
    dictionary of the early return. *)
Definition analyze (threshold_ : Z) (files : list string)
  : outcome (bool * string * option Metrics) :=
  match files with
  | [] => Return (false, "No changes detected", None)
  | _ :: _ =>
      let '(types, scopes) := foldl record_file ([], []) files in
      let reasons123 := split_reasons types scopes (length files) threshold_ in
      concerns_ ← detect_mixed_concerns types scopes;
      let reasons :=
        match concerns_ with
        | [] => reasons123
        | _ :: _ => app reasons123 [concerns_reason concerns_]
        end in
      let metrics := {|
        file_count := length files;
        types_detected := keys types;
        type_counts := map (fun kv => (fst kv, length (snd kv))) types;
        scopes_detected := keys scopes;
        scope_counts := map (fun kv => (fst kv, length (snd kv))) scopes;
        concerns := concerns_;
        threshold := threshold_ |} in
      match reasons with
      | _ :: _ => Return (true, join "; " reasons, Some metrics)
      | [] => Return (false, "Changes are atomic - single logical unit", Some metrics)
      end
  end.


End WithGit.

End Analyzer.

Import Planner Analyzer.

Local Close Scope string_scope.

(** ** Vocabulary of the properties *)

(** *** The dependency dictionary as a graph *)

Module Graph.

(** The set stored under [k], empty when the key is missing. *)
Definition dget (d : gmap nat (gset nat)) (k : nat) : gset nat := default ∅ (d !! k).

(** [edge deps p d]: commit [d] depends on commit [p], the dependency
    edge (p, d). *)
Definition edge (deps : gmap nat (gset nat)) (p d : nat) : Prop := p ∈ dget deps d.

Definition edges_in_range (n : nat) (deps : gmap nat (gset nat)) : Prop :=
  ∀ p d, edge deps p d → p < n ∧ d < n.

Definition acyclic (deps : gmap nat (gset nat)) : Prop := ∀ k, ¬ tc (edge deps) k k.

Definition cyclic (deps : gmap nat (gset nat)) : Prop := ∃ k, tc (edge deps) k k.

(** Decidable checks for concrete graphs. *)
Definition in_range_check (n : nat) (deps : gmap nat (gset nat)) : Prop :=
  map_Forall (fun d s => d < n ∧ set_Forall (fun p => p < n) s) deps.

Definition forward_check (deps : gmap nat (gset nat)) : Prop :=
  map_Forall (fun d s => set_Forall (fun p => p < d) s) deps.

End Graph.

Import Graph.

(** *** Sequencing *)

Module Sequencing.

(** [x] stands before [y] in [l]. *)
Definition before (x y : nat) (l : list nat) : Prop :=
  ∃ l1 l2 l3, l = (l1 ++ x :: l2 ++ y :: l3)%list.

(** Every emitted node comes after all the nodes it depends on. *)
Definition topo_prefix (d0 : gmap nat (gset nat)) (l : list nat) : Prop :=
  ∀ i r, l !! i = Some r → dget d0 r ⊆ list_to_set (take i l).

(** What holds of the variables of [topological_sort] whenever the
    [while] test is evaluated, for [n] commits and the graph [d0] the
    function was called with. *)
Record sort_inv (n : nat) (d0 : gmap nat (gset nat)) (st : sort_state) : Prop := {
  inv_deps : ∀ k, k < n →
    dget (dependencies st) k = dget d0 k ∖ list_to_set (result st);
  inv_present : ∀ k, k < n → is_Some (dependencies st !! k);
  inv_degree : ∀ k, k < n →
    in_degree_get (in_degree st) k = Z.of_nat (size (dget (dependencies st) k));
  inv_nodup : NoDup (result st ++ queue st);
  inv_ready : ∀ k, k ∈ (result st ++ queue st)%list ↔
                   k < n ∧ dget (dependencies st) k = ∅;
  inv_prefix : topo_prefix d0 (result st)
}.

(** The nodes that become ready when [node] is emitted. *)
Definition released (node : nat) (st : sort_state) (n : nat) : list nat :=
  filter (fun k => node ∈ dget (dependencies st) k ∧
                   (in_degree_get (in_degree st) k - 1 = 0)%Z) (seq 0 n).

(** The nodes that were not given a position. *)
Definition unresolved (commits : list Commit) (deps : gmap nat (gset nat)) : gset nat :=
  match sort_run commits deps with
  | Some st => list_to_set (seq 0 (length commits)) ∖ list_to_set (result st)
  | None => ∅
  end.

End Sequencing.

Import Sequencing.

(** *** The analyzer *)

Module Verdict.


(** The type inferred for a changed file, from its path and its diff. *)
Definition file_type (git_diff_cached git_diff : string → option string)
    (f : string) : string :=
  detect_type_from_diff f (get_file_diff git_diff_cached git_diff f).

(** One of the two dictionaries of [analyze], filled from [files]:
    every file is appended to the list under its key. *)
Definition collect (key : string → string) (files : list string)
    (d : list (string * list string)) : list (string * list string) :=
  foldl (fun d f => dict_append d (key f) f) d files.


(** The histogram of a dictionary of lists, as [analyze] builds it. *)
Definition counts (d : list (string * list string)) : list (string * nat) :=
  map (fun kv => (fst kv, length (snd kv))) d.

End Verdict.

Import Verdict.

(** *** Inputs used below *)

Module Examples.

Definition descriptor (t : string) (sc : option string) (sub : option string) : Commit :=
  {| type := t; scope := sc; subject := sub; files := None |}.

(** Scenario B of the specification. *)
Definition scenario_B : list Commit :=
  [ descriptor "feat" (Some "auth") None;
    descriptor "test" (Some "auth") None;
    descriptor "docs" None (Some "document auth flow") ].

Definition graph_B : gmap nat (gset nat) := {[ 1 := {[0]}; 2 := {[0]} ]}.

(** Two features and the documentation of each; the documentation of the
    first feature has the larger index. *)
Definition two_docs : list Commit :=
  [ descriptor "feat" None None; descriptor "docs" None None;
    descriptor "feat" None None; descriptor "docs" None None ].

Definition graph_two_docs : gmap nat (gset nat) := {[ 3 := {[0]}; 1 := {[2]} ]}.

(** Three commits, with a cycle between the first two or the last two. *)
Definition three_feats : list Commit :=
  [ descriptor "feat" None None; descriptor "feat" None None;
    descriptor "feat" None None ].

Definition cycle_01 : gmap nat (gset nat) := {[ 0 := {[1]}; 1 := {[0]} ]}.
Definition cycle_12 : gmap nat (gset nat) := {[ 1 := {[2]}; 2 := {[1]} ]}.

(** Two modules that import each other. *)
Definition mutual_imports : string → option string :=
  fun path =>
    if String.eqb path "a.py" then Some "import b"
    else if String.eqb path "b.py" then Some "import a"
    else None.

Definition mutual_commits : list Commit :=
  [ {| type := "chore"; scope := None; subject := None; files := Some ["a.py"] |};
    {| type := "chore"; scope := None; subject := None; files := Some ["b.py"] |} ].

(** A feature without scope and its documentation. *)
Definition unscoped_feature : list Commit :=
  [ descriptor "feat" None (Some "add login");
    descriptor "docs" None (Some "document login") ].

(** A feature and its tests. *)
Definition feature_and_test : list Commit :=
  [ descriptor "feat" (Some "auth") (Some "add login");
    descriptor "test" (Some "auth") (Some "test login") ].

(** Scenario A of the specification. *)
Definition scenario_A : list string := ["src/auth/login.ts"; "src/auth/login.test.ts"].

(** The output of [git diff --cached --name-only] when a README and one
    source file are staged. *)
Definition staged_two : string :=
  "README.md" ++ String LF ("src/a/x.py" ++ String LF EmptyString).

(** No diff is available for any file. *)
Definition no_diff : string → option string := fun _ => None.

End Examples.

Import Examples.

(** *** The builder and the plan *)

Module BuildVocabulary.

(** A feature without scope facing a documentation commit: the pair on
    which the docs rule evaluates [None in subject]. *)
Definition unscoped_docs_pair (c1 c2 : Commit) : Prop :=
  type c1 = "feat"%string ∧ type c2 = "docs"%string ∧ scope c1 = None.

(** The last rule of [detect_dependencies]: some file of [c2] imports
    from some file of [c1]. *)
Definition imports_from (git_show : string → option string) (c1 c2 : Commit) : bool :=
  any (fun file2 =>
         any (fun file1 => has_import_dependency git_show file1 file2)
             (default [] (files c1)))
      (default [] (files c2)).

(** What an entry of the plan is, given the position [it.1] at which
    commit [it.2] was emitted. *)
Definition entry_at (commits : list Commit) (it : nat * nat) (e : PlannedCommit) : Prop :=
  order e = it.1 + 1 ∧ commit_id e = it.2 + 1 ∧ original_id e = it.2 ∧
  commits !! it.2 = Some (commit e) ∧ can_execute e = now.

End BuildVocabulary.

Import BuildVocabulary.

(** *** Types, scopes and histograms *)

Module AnalyzerVocabulary.

(** Line 24 of split-analyzer.py. *)
Definition COMMIT_TYPES : list string :=
  ["feat"; "fix"; "docs"; "style"; "refactor"; "test"; "chore"; "perf"; "ci"; "build"]%string.

(** [c in s] for a single character. *)
Definition has_char (c : ascii) (s : string) : bool := contains s (String c EmptyString).

(** The sum of the counts of a histogram. *)
Definition total (counts : list (string * nat)) : nat := sum_list (map snd counts).

End AnalyzerVocabulary.

Import AnalyzerVocabulary.

(** *** Iteration orders of sets *)

Module Iteration.






Section WithGit.

Variable git_show : string → option string.





End WithGit.





End Iteration.

Import Iteration.

(** * Properties *)

(** ** The dependency dictionary *)

Module GraphFacts.

Lemma edge_lookup deps p d : edge deps p d ↔ ∃ s, deps !! d = Some s ∧ p ∈ s.
Proof.
  unfold edge, dget. destruct (deps !! d) as [s|]; simpl.
  - split; [eauto | by intros (s' & [= <-] & ?)].
  - split; [set_solver | by intros (s' & ? & ?)].
Qed.

Lemma in_range_check_sound n deps : in_range_check n deps → edges_in_range n deps.
Proof.
  intros Hall p d (s & Hs & Hp)%edge_lookup.
  destruct (Hall d s Hs) as [Hd Hps]. split; [by apply Hps | done].
Qed.

Lemma forward_check_sound deps : forward_check deps → ∀ p d, edge deps p d → p < d.
Proof. intros Hall p d (s & Hs & Hp)%edge_lookup. by apply (Hall d s Hs). Qed.

Lemma tc_forward deps :
  (∀ p d, edge deps p d → p < d) → ∀ x y, tc (edge deps) x y → x < y.
Proof.
  intros Hfw x y Htc. induction Htc as [x y H | x y z H _ IH].
  - by apply Hfw.
  - apply Hfw in H. lia.
Qed.

Lemma forward_acyclic deps : forward_check deps → acyclic deps.
Proof.
  intros Hall k Hk.
  pose proof (tc_forward deps (forward_check_sound deps Hall) k k Hk). lia.
Qed.

Lemma getitem_fst d k : (getitem d k).1 = dget d k.
Proof. unfold getitem, dget. by destruct (d !! k). Qed.

Lemma getitem_snd d k n : dget (getitem d k).2 n = dget d n.
Proof.
  unfold getitem, dget. destruct (d !! k) as [s|] eqn:Hk; simpl; [done|].
  destruct (decide (k = n)) as [->|Hne].
  - by rewrite lookup_insert_eq, Hk.
  - by rewrite lookup_insert_ne.
Qed.

Lemma getitem_snd_present d k : (getitem d k).2 !! k = Some (dget d k).
Proof.
  unfold getitem, dget. destruct (d !! k) as [s|] eqn:Hk; simpl; [done|].
  by rewrite lookup_insert_eq.
Qed.

Lemma getitem_snd_is_Some d k n : is_Some (d !! n) → is_Some ((getitem d k).2 !! n).
Proof.
  unfold getitem. destruct (d !! k) as [s|] eqn:Hk; simpl; [done|].
  intros Hn. destruct (decide (k = n)) as [->|Hne].
  - rewrite lookup_insert_eq. eauto.
  - by rewrite lookup_insert_ne.
Qed.

Lemma dget_insert d k s n :
  dget (<[k := s]> d) n = if decide (k = n) then s else dget d n.
Proof.
  unfold dget. destruct (decide (k = n)) as [->|Hne].
  - by rewrite lookup_insert_eq.
  - by rewrite lookup_insert_ne.
Qed.

End GraphFacts.

Import GraphFacts.

(** ** The sequencer *)

Module SequencingFacts.

(** *** The stable sort of the ready queue *)

Lemma insert_by_perm key x l : insert_by key x l ≡ₚ x :: l.
Proof.
  induction l as [|y l IH]; simpl; [done|].
  destruct (key x <=? key y)%nat; [done|].
  rewrite IH. apply perm_swap.
Qed.

Lemma sort_by_perm key l : sort_by key l ≡ₚ l.
Proof.
  induction l as [|x l IH]; simpl; [done|].
  by rewrite insert_by_perm, IH.
Qed.

(** [insert_by] puts [x] behind elements of smaller key only. *)
Lemma insert_by_split key x l :
  ∃ l1 l2, insert_by key x l = (l1 ++ x :: l2)%list ∧ l = (l1 ++ l2)%list ∧
           Forall (fun y => (key y < key x)%nat) l1.
Proof.
  induction l as [|y l (l1 & l2 & Hins & Hl & Hlt)]; simpl.
  - by exists [], [].
  - destruct (key x <=? key y)%nat eqn:Hle.
    + by exists [], (y :: l).
    + apply Nat.leb_gt in Hle. exists (y :: l1), l2.
      rewrite Hins, Hl. split_and!; [done | done | by constructor].
Qed.

Lemma before_cons x y z l : before x y l → before x y (z :: l).
Proof. intros (l1 & l2 & l3 & ->). by exists (z :: l1), l2, l3. Qed.

Lemma before_head x y l : y ∈ l → before x y (x :: l).
Proof. intros (l2 & l3 & ->)%list_elem_of_split. by exists [], l2, l3. Qed.

Lemma before_app_r x y l l' : before x y l → before x y (l ++ l').
Proof.
  intros (l1 & l2 & l3 & ->). exists l1, l2, (l3 ++ l')%list.
  by rewrite <- !app_assoc, <- !app_comm_cons, <- !app_assoc.
Qed.

Lemma before_inv_cons x y z l :
  before x y (z :: l) → (z = x ∧ y ∈ l) ∨ before x y l.
Proof.
  intros ([|z' l1] & l2 & l3 & Heq); simplify_eq/=.
  - left. split; [done|]. set_solver.
  - right. by exists l1, l2, l3.
Qed.

Lemma before_insert_by key x y z l :
  before x y l → before x y (insert_by key z l).
Proof.
  intros (l1 & l2 & l3 & ->).
  induction l1 as [|a l1 IH]; simpl.
  - destruct (key z <=? key x)%nat.
    + apply before_cons. by exists [], l2, l3.
    + destruct (insert_by_split key z (l2 ++ y :: l3)) as (k1 & k2 & -> & Hl & _).
      apply before_head.
      assert (y ∈ (k1 ++ k2)%list) as Hy.
      { rewrite <- Hl, elem_of_app, elem_of_cons. tauto. }
      rewrite elem_of_app in Hy. rewrite elem_of_app, elem_of_cons. tauto.
  - destruct (key z <=? key a)%nat.
    + do 2 apply before_cons. by exists l1, l2, l3.
    + by apply before_cons.
Qed.

(** Stability: two elements whose keys are in order keep their order. *)
Lemma sort_by_before key x y l :
  before x y l → (key x ≤ key y)%nat → before x y (sort_by key l).
Proof.
  intros Hb Hle. induction l as [|a l IH]; simpl.
  - destruct Hb as ([|??] & ? & ? & ?); discriminate.
  - apply before_inv_cons in Hb as [[-> Hy] | Hb].
    + destruct (insert_by_split key x (sort_by key l)) as (k1 & k2 & -> & Hl & Hlt).
      assert (y ∈ (k1 ++ k2)%list) as [Hy1|Hy2]%elem_of_app.
      { rewrite <- Hl. by rewrite sort_by_perm. }
      * rewrite Forall_forall in Hlt. apply Hlt in Hy1. lia.
      * apply list_elem_of_split in Hy2 as (m1 & m2 & ->). by exists k1, m1, m2.
    + by apply before_insert_by, IH.
Qed.


(** *** The in-degree table *)

Lemma init_in_degree_spec n deps :
  let '(ind, d) := init_in_degree n deps in
  (∀ k, dget d k = dget deps k) ∧
  (∀ k, k < n → is_Some (d !! k)) ∧
  (∀ k, k < n → in_degree_get ind k = Z.of_nat (size (dget deps k))).
Proof.
  unfold init_in_degree. induction n as [|n IH].
  - simpl. split_and!; [done | lia | lia].
  - rewrite seq_S, foldl_app. simpl.
    destruct (foldl _ _ (seq 0 n)) as [ind d]. destruct IH as (Hd & Hp & Hi).
    pose proof (getitem_fst d n) as Hfst. pose proof (getitem_snd d n) as Hsnd.
    pose proof (getitem_snd_present d n) as Hpres.
    pose proof (getitem_snd_is_Some d n) as Hkeep.
    destruct (getitem d n) as [s d1]. simpl in *. subst s. split_and!.
    + intros k. by rewrite Hsnd, Hd.
    + intros k Hk. destruct (decide (k = n)) as [->|Hne]; [by eauto|].
      apply Hkeep, Hp. lia.
    + intros k Hk. unfold in_degree_get. destruct (decide (k = n)) as [->|Hne].
      * by rewrite lookup_insert_eq, Hd.
      * rewrite lookup_insert_ne by done. apply Hi. lia.
Qed.


(** *** The [for other_node] loop *)

Lemma update_nodes_spec node st n :
  let st' := foldl (update_node node) st (seq 0 n) in
  (∀ k, dget (dependencies st') k =
        if decide (k < n) then dget (dependencies st) k ∖ {[node]}
        else dget (dependencies st) k) ∧
  (∀ k, is_Some (dependencies st !! k) ∨ k < n → is_Some (dependencies st' !! k)) ∧
  (∀ k, in_degree_get (in_degree st') k =
        if decide (k < n ∧ node ∈ dget (dependencies st) k)
        then (in_degree_get (in_degree st) k - 1)%Z
        else in_degree_get (in_degree st) k) ∧
  queue st' = (queue st ++ released node st n)%list ∧
  result st' = result st.
Proof.
  induction n as [|n IH].
  - simpl. split_and!; [done | | done | | done].
    + intros k [?|?]; [done | lia].
    + unfold released. simpl. by rewrite app_nil_r.
  - rewrite seq_S, foldl_app. simpl.
    destruct IH as (Hd & Hp & Hi & Hq & Hr).
    set (st1 := foldl (update_node node) st (seq 0 n)) in *.
    unfold released. rewrite seq_S, filter_app. fold (released node st n).
    simpl. unfold update_node.
    pose proof (getitem_fst (dependencies st1) n) as Hfst.
    pose proof (getitem_snd (dependencies st1) n) as Hsnd.
    pose proof (getitem_snd_present (dependencies st1) n) as Hpres.
    pose proof (getitem_snd_is_Some (dependencies st1) n) as Hkeep.
    destruct (getitem (dependencies st1) n) as [s d1]. simpl in *. subst s.
    assert (dget (dependencies st1) n = dget (dependencies st) n) as Hn.
    { rewrite Hd. rewrite decide_False by lia. done. }
    assert (in_degree_get (in_degree st1) n = in_degree_get (in_degree st) n) as Hin.
    { rewrite Hi. rewrite decide_False by lia. done. }
    rewrite Hn, Hin.
    destruct (decide (node ∈ dget (dependencies st) n)) as [Hmem|Hmem]; simpl.
    + split_and!.
      * intros k. rewrite dget_insert.
        destruct (decide (n = k)) as [<-|Hne].
        -- by rewrite decide_True by lia.
        -- rewrite Hsnd, Hd.
           destruct (decide (k < n)).
           ++ by rewrite decide_True by lia.
           ++ by rewrite decide_False by lia.
      * intros k Hk. destruct (decide (n = k)) as [<-|Hne].
        -- rewrite lookup_insert_eq. eauto.
        -- rewrite lookup_insert_ne by done. apply Hkeep, Hp.
           destruct Hk; [by left | right; lia].
      * intros k. unfold in_degree_get at 1.
        destruct (decide (n = k)) as [<-|Hne].
        -- rewrite lookup_insert_eq. simpl. rewrite decide_True; [done|].
           split; [lia | done].
        -- rewrite lookup_insert_ne by done. fold (in_degree_get (in_degree st1) k).
           rewrite Hi.
           destruct (decide (k < n ∧ node ∈ dget (dependencies st) k)) as [[??]|Hno].
           ++ rewrite decide_True; [done|]. split; [lia|done].
           ++ rewrite decide_False; [done|]. intros [??]. apply Hno. split; [lia|done].
      * unfold in_degree_get at 1. rewrite lookup_insert_eq. simpl.
        rewrite Hq.
        destruct (decide (node ∈ dget (dependencies st) n ∧
                          (in_degree_get (in_degree st) n - 1)%Z = 0%Z)) as [[_ Hz]|Hnz].
        -- rewrite Hz. simpl. rewrite filter_cons_True by done.
           by rewrite filter_nil, <- app_assoc.
        -- rewrite filter_cons_False, filter_nil, app_nil_r by done.
           destruct (in_degree_get (in_degree st) n - 1 =? 0)%Z eqn:Hz; [|done].
           apply Z.eqb_eq in Hz. by destruct Hnz.
      * done.
    + split_and!.
      * intros k. rewrite Hsnd, Hd.
        destruct (decide (k = n)) as [->|Hne].
        -- rewrite decide_False, decide_True by lia.
           symmetry. apply difference_disjoint_L. by apply disjoint_singleton_r.
        -- destruct (decide (k < n)).
           ++ by rewrite decide_True by lia.
           ++ by rewrite decide_False by lia.
      * intros k Hk. destruct (decide (n = k)) as [<-|Hne].
        -- rewrite Hpres. eauto.
        -- apply Hkeep, Hp. destruct Hk; [by left | right; lia].
      * intros k. rewrite Hi.
        destruct (decide (k < n ∧ node ∈ dget (dependencies st) k)) as [[??]|Hno].
        -- rewrite decide_True; [done|]. split; [lia|done].
        -- rewrite decide_False; [done|]. intros [Hk ?]. apply Hno. split; [|done].
           destruct (decide (k = n)) as [->|]; [done | lia].
      * rewrite Hq. rewrite filter_cons_False, filter_nil, app_nil_r; [done|].
        by intros [? _].
      * done.
Qed.

(** *** One turn of the [while] loop *)

Lemma sort_by_nonempty key l : l ≠ [] → ∃ node rest, sort_by key l = node :: rest.
Proof.
  intros Hl. destruct (sort_by key l) as [|node rest] eqn:Hs; [|by eauto].
  pose proof (sort_by_perm key l) as Hp. rewrite Hs in Hp.
  apply Permutation_nil_l in Hp. by subst.
Qed.

Lemma sort_turn_spec commits st node rest :
  sort_by (priority commits) (queue st) = node :: rest →
  let n := length commits in
  let st' := sort_turn commits st in
  (∀ k, dget (dependencies st') k =
        if decide (k < n) then dget (dependencies st) k ∖ {[node]}
        else dget (dependencies st) k) ∧
  (∀ k, is_Some (dependencies st !! k) ∨ k < n → is_Some (dependencies st' !! k)) ∧
  (∀ k, in_degree_get (in_degree st') k =
        if decide (k < n ∧ node ∈ dget (dependencies st) k)
        then (in_degree_get (in_degree st) k - 1)%Z
        else in_degree_get (in_degree st) k) ∧
  queue st' = (rest ++ released node st n)%list ∧
  result st' = (result st ++ [node])%list.
Proof.
  intros Hs. unfold sort_turn. rewrite Hs.
  apply (update_nodes_spec node
           {| dependencies := dependencies st; in_degree := in_degree st;
              queue := rest; result := (result st ++ [node])%list |}
           (length commits)).
Qed.

Lemma topo_prefix_snoc d0 l x :
  topo_prefix d0 l → dget d0 x ⊆ list_to_set l → topo_prefix d0 (l ++ [x]).
Proof.
  intros Hl Hx i r Hi. destruct (decide (i < length l)) as [Hlt|Hge].
  - rewrite lookup_app_l in Hi by done.
    rewrite take_app_le by lia. by apply Hl.
  - apply lookup_lt_Some in Hi as Hlen. rewrite length_app in Hlen. simpl in Hlen.
    assert (i = length l) as -> by lia.
    rewrite list_lookup_middle in Hi by done. injection Hi as <-.
    by rewrite take_app_length.
Qed.

Lemma size_one_remove (s : gset nat) x : x ∈ s → size s = 1 → s ∖ {[x]} = ∅.
Proof.
  intros Hx Hs. apply size_1_elem_of in Hs as [y Hy].
  apply leibniz_equiv in Hy. subst s. set_solver.
Qed.

Lemma size_remove (s : gset nat) x :
  x ∈ s → Z.of_nat (size (s ∖ {[x]})) = (Z.of_nat (size s) - 1)%Z.
Proof.
  intros Hx. rewrite size_difference by set_solver. rewrite size_singleton.
  assert (size s ≠ 0) by (apply size_non_empty_iff; set_solver). lia.
Qed.

Lemma remove_empty_inv (s : gset nat) x : x ∈ s → s ∖ {[x]} = ∅ → s = {[x]}.
Proof.
  intros Hx He. apply set_eq. intros y. rewrite elem_of_singleton. split.
  - intros Hy. destruct (decide (y = x)) as [|Hne]; [done|].
    assert (y ∈ s ∖ {[x]}) as Hd by (apply elem_of_difference; set_solver).
    rewrite He in Hd. by apply not_elem_of_empty in Hd.
  - by intros ->.
Qed.

Lemma remove_absent (s : gset nat) x : x ∉ s → s ∖ {[x]} = s.
Proof. set_solver. Qed.

Lemma remove_snoc (s : gset nat) (l : list nat) x :
  s ∖ list_to_set l ∖ {[x]} = s ∖ list_to_set (l ++ [x]).
Proof. rewrite list_to_set_app_L. set_solver. Qed.

Lemma empty_difference_subseteq (s t : gset nat) : ∅ = s ∖ t → s ⊆ t.
Proof.
  intros He p Hp. destruct (decide (p ∈ t)) as [|Hn]; [done|].
  assert (p ∈ (∅ : gset nat)) as Hf by (rewrite He; set_solver). set_solver.
Qed.

Lemma sort_init_inv commits deps :
  sort_inv (length commits) deps (sort_init commits deps).
Proof.
  unfold sort_init. pose proof (init_in_degree_spec (length commits) deps) as Hspec.
  destruct (init_in_degree (length commits) deps) as [ind d].
  destruct Hspec as (Hd & Hp & Hi). split; simpl.
  - intros k _. rewrite Hd. simpl. by rewrite difference_empty_L.
  - done.
  - intros k Hk. by rewrite Hi, Hd.
  - apply NoDup_filter, NoDup_seq.
  - intros k. rewrite list_elem_of_filter, elem_of_seq, Hd. split.
    + intros [Hz Hk]. split; [lia|]. rewrite Hi in Hz by lia.
      apply leibniz_equiv, size_empty_iff. lia.
    + intros [Hk He]. split; [|lia]. rewrite Hi by done. by rewrite He, size_empty.
  - intros i r Hi'. by rewrite lookup_nil in Hi'.
Qed.

Lemma sort_turn_inv commits d0 st :
  sort_inv (length commits) d0 st → queue st ≠ [] →
  sort_inv (length commits) d0 (sort_turn commits st) ∧
  length (result (sort_turn commits st)) = S (length (result st)).
Proof.
  intros [Hdeps Hpres Hdeg Hnd Hready Hpre] Hq.
  destruct (sort_by_nonempty (priority commits) _ Hq) as (node & rest & Hs).
  destruct (sort_turn_spec commits st node rest Hs) as (Hd & Hp & Hi & Hq' & Hr).
  pose proof (sort_by_perm (priority commits) (queue st)) as Hperm. rewrite Hs in Hperm.
  assert (node < length commits ∧ dget (dependencies st) node = ∅) as [Hnode Hempty].
  { apply Hready. rewrite elem_of_app, <- Hperm. right. by left. }
  assert (∀ k, k ∈ released node st (length commits) ↔
               k < length commits ∧ node ∈ dget (dependencies st) k ∧
               size (dget (dependencies st) k) = 1) as Hrel.
  { intros k. unfold released. rewrite list_elem_of_filter, elem_of_seq. split.
    - intros [[Hm Hz] Hk]. rewrite Hdeg in Hz by lia.
      split; [lia | split; [done | lia]].
    - intros (Hk & Hm & Hz). split; [split; [done|] | lia]. rewrite Hdeg by lia. lia. }
  split; [|rewrite Hr, length_app; simpl; lia].
  split.
  - intros k Hk. rewrite Hd, decide_True, Hdeps, Hr by done.
    apply remove_snoc.
  - intros k Hk. apply Hp. right. exact Hk.
  - intros k Hk. rewrite Hd, decide_True by done. rewrite Hi.
    destruct (decide (k < length commits ∧ node ∈ dget (dependencies st) k)) as [[_ Hm]|Hno].
    + rewrite size_remove by done. by rewrite Hdeg.
    + rewrite remove_absent; [by apply Hdeg|].
      intros Hm. apply Hno. by split.
  - rewrite Hr, Hq', <- app_assoc. simpl.
    assert (NoDup (result st ++ (node :: rest) ++ released node st (length commits))) as Hnd'.
    { rewrite app_assoc. apply NoDup_app. split_and!.
      - by rewrite Hperm.
      - intros k Hk Hk'. rewrite Hperm in Hk. apply Hready in Hk as [_ Hk].
        apply Hrel in Hk' as (_ & Hm & _). rewrite Hk in Hm.
        by apply not_elem_of_empty in Hm.
      - apply NoDup_filter, NoDup_seq. }
    done.
  - intros k. rewrite Hr, Hq', Hd, <- app_assoc. simpl.
    assert (k ∈ (result st ++ node :: rest ++ released node st (length commits))%list ↔
            k ∈ (result st ++ queue st)%list ∨ k ∈ released node st (length commits)) as ->.
    { rewrite !elem_of_app, !elem_of_cons, !elem_of_app, <- Hperm, elem_of_cons. tauto. }
    rewrite Hready, Hrel. split.
    + intros [[Hk He]|(Hk & Hm & Hsz)]; (split; [done|]); rewrite decide_True by done.
      * rewrite He. apply remove_absent, not_elem_of_empty.
      * by apply size_one_remove.
    + intros [Hk He]. rewrite decide_True in He by done.
      destruct (decide (node ∈ dget (dependencies st) k)) as [Hm|Hm].
      * right. split_and!; [done..|].
        rewrite (remove_empty_inv _ _ Hm He). apply size_singleton.
      * left. split; [done|]. by rewrite remove_absent in He.
  - rewrite Hr. apply topo_prefix_snoc; [done|].
    specialize (Hdeps node Hnode). rewrite Hempty in Hdeps.
    by apply empty_difference_subseteq.
Qed.

(** *** The whole loop *)

Lemma sort_inv_bound n d0 st :
  sort_inv n d0 st → length (result st ++ queue st) ≤ n.
Proof.
  intros Hinv. trans (length (seq 0 n)); [|by rewrite length_seq].
  apply submseteq_length.
  apply NoDup_submseteq; [apply (inv_nodup _ _ _ Hinv)|].
  intros k Hk. apply (inv_ready _ _ _ Hinv) in Hk as [Hk _].
  apply elem_of_seq. lia.
Qed.

Lemma sort_loop_total commits d0 fuel st :
  sort_inv (length commits) d0 st →
  length commits ≤ fuel + length (result st) →
  ∃ st', sort_loop fuel commits st = Some st' ∧
         sort_inv (length commits) d0 st' ∧ queue st' = [].
Proof.
  revert st. induction fuel as [|fuel IH]; intros st Hinv Hfuel.
  - pose proof (sort_inv_bound _ _ _ Hinv) as Hb. rewrite length_app in Hb.
    simpl. destruct (queue st) as [|x q] eqn:Hq; [by eauto|].
    simpl in *. lia.
  - simpl. destruct (queue st) as [|x q] eqn:Hq; [by eauto|].
    destruct (sort_turn_inv commits d0 st Hinv) as [Hinv' Hlen].
    { by rewrite Hq. }
    apply IH; [done | lia].
Qed.

Lemma sort_run_total commits deps :
  ∃ st, sort_run commits deps = Some st ∧
        sort_inv (length commits) deps st ∧ queue st = [].
Proof.
  apply sort_loop_total; [apply sort_init_inv|]. lia.
Qed.

(** *** The final state *)

Lemma sort_inv_range n d0 st k : sort_inv n d0 st → k ∈ result st → k < n.
Proof.
  intros Hinv Hk.
  assert (k ∈ (result st ++ queue st)%list) as Hk' by (apply elem_of_app; by left).
  by apply (inv_ready _ _ _ Hinv) in Hk' as [? _].
Qed.

Lemma sort_inv_result_nodup n d0 st : sort_inv n d0 st → NoDup (result st).
Proof.
  intros Hinv. pose proof (inv_nodup _ _ _ Hinv) as Hnd.
  by apply NoDup_app in Hnd as [? _].
Qed.

Lemma full_result_perm n d0 st :
  sort_inv n d0 st → length (result st) = n → result st ≡ₚ seq 0 n.
Proof.
  intros Hinv Hlen. apply submseteq_length_Permutation.
  - apply NoDup_submseteq; [by eapply sort_inv_result_nodup|].
    intros k Hk. apply elem_of_seq. pose proof (sort_inv_range _ _ _ _ Hinv Hk). lia.
  - rewrite length_seq. lia.
Qed.

(** A node is emitted after each node it depends on. *)
Lemma result_respects_edge n d0 st p d j :
  sort_inv n d0 st → edge d0 p d → result st !! j = Some d →
  ∃ i, i < j ∧ result st !! i = Some p.
Proof.
  intros Hinv Hedge Hj.
  pose proof (inv_prefix _ _ _ Hinv j d Hj p Hedge) as Hp.
  apply elem_of_list_to_set, list_elem_of_lookup in Hp as [i Hi].
  apply lookup_take_Some in Hi as [Hi Hlt]. eauto.
Qed.

Lemma result_respects_tc n d0 st x y j :
  sort_inv n d0 st → tc (edge d0) x y → result st !! j = Some y →
  ∃ i, i < j ∧ result st !! i = Some x.
Proof.
  intros Hinv Htc. revert j.
  induction Htc as [x y Hxy | x y z Hxy _ IH]; intros j Hj.
  - by eapply result_respects_edge.
  - destruct (IH j Hj) as (i & Hi & Hy).
    destruct (result_respects_edge _ _ _ _ _ _ Hinv Hxy Hy) as (i' & Hi' & Hx).
    exists i'. split; [lia | done].
Qed.

(** No node of a cycle is ever emitted. *)
Lemma cycle_not_emitted n d0 st k :
  sort_inv n d0 st → tc (edge d0) k k → k ∉ result st.
Proof.
  intros Hinv Htc [j Hj]%list_elem_of_lookup.
  destruct (result_respects_tc _ _ _ _ _ _ Hinv Htc Hj) as (i & Hlt & Hi).
  pose proof (NoDup_lookup _ _ _ _ (sort_inv_result_nodup _ _ _ Hinv) Hi Hj). lia.
Qed.

Lemma tc_edge_range n d0 x y :
  edges_in_range n d0 → tc (edge d0) x y → x < n ∧ y < n.
Proof.
  intros Hr Htc. induction Htc as [x y Hxy | x y z Hxy _ [_ IH]].
  - by apply Hr.
  - split; [by apply (Hr _ _ Hxy) | done].
Qed.

Lemma tc_flip_edge d0 x y : tc (flip (edge d0)) x y → tc (edge d0) y x.
Proof.
  induction 1 as [x y Hxy | x y z Hxy _ IH].
  - by apply tc_once.
  - eapply tc_r; [exact IH | exact Hxy].
Qed.

(** In an acyclic graph over [0..n-1] every chain of dependencies ends. *)
Lemma acyclic_wf n d0 : edges_in_range n d0 → acyclic d0 → ∀ k, Acc (edge d0) k.
Proof.
  intros Hr Hac k.
  assert (sn (flip (edge d0)) k) as Hsn.
  { apply tc_finite_sn.
    - intros x Hx. apply (Hac x). by apply tc_flip_edge.
    - exists (seq 0 n). intros y Hy%tc_flip_edge.
      apply (tc_edge_range n) in Hy as [Hy _]; [|done]. apply elem_of_seq. lia. }
  clear -Hsn. induction Hsn as [k _ IH]. constructor. intros p Hp. by apply IH.
Qed.

Lemma acyclic_all_emitted n d0 st :
  sort_inv n d0 st → queue st = [] → edges_in_range n d0 → acyclic d0 →
  ∀ k, k < n → k ∈ result st.
Proof.
  intros Hinv Hq Hr Hac k. induction (acyclic_wf n d0 Hr Hac k) as [k _ IH].
  intros Hk. destruct (decide (k ∈ result st)) as [|Hnot]; [done|]. exfalso.
  destruct (decide (dget (dependencies st) k = ∅)) as [He|Hne].
  - assert (k ∈ (result st ++ queue st)%list) as Hin by (by apply (inv_ready _ _ _ Hinv)).
    rewrite Hq, app_nil_r in Hin. done.
  - apply set_choose_L in Hne as [p Hp].
    rewrite (inv_deps _ _ _ Hinv k Hk) in Hp.
    apply elem_of_difference in Hp as [Hp Hpn].
    apply Hpn, elem_of_list_to_set, IH; [done|]. by apply (Hr p k).
Qed.

Lemma acyclic_full_result n d0 st :
  sort_inv n d0 st → queue st = [] → edges_in_range n d0 → acyclic d0 →
  length (result st) = n.
Proof.
  intros Hinv Hq Hr Hac. apply Nat.le_antisymm.
  - pose proof (sort_inv_bound _ _ _ Hinv) as Hb. rewrite length_app in Hb. lia.
  - trans (length (seq 0 n)); [by rewrite length_seq|]. apply submseteq_length.
    apply NoDup_submseteq; [apply NoDup_seq|].
    intros k Hk%elem_of_seq. apply (acyclic_all_emitted n d0); [done..|lia].
Qed.

Lemma full_result_deps_empty n d0 st :
  sort_inv n d0 st → length (result st) = n →
  ∀ k, k < n → dependencies st !! k = Some ∅.
Proof.
  intros Hinv Hlen k Hk.
  assert (k ∈ result st) as Hin.
  { rewrite (full_result_perm _ _ _ Hinv Hlen). apply elem_of_seq. lia. }
  assert (k ∈ (result st ++ queue st)%list) as Hin' by (apply elem_of_app; by left).
  apply (inv_ready _ _ _ Hinv) in Hin' as [_ He].
  destruct (inv_present _ _ _ Hinv k Hk) as [s Hs].
  unfold dget in He. rewrite Hs in He. simpl in He. by subst.
Qed.

(** *** What [topological_sort] returns *)

Lemma topological_sort_cases commits deps :
  ∃ st, sort_run commits deps = Some st ∧
        sort_inv (length commits) deps st ∧ queue st = [] ∧
        topological_sort commits deps =
          if decide (length (result st) ≠ length commits)
          then SysExit 1 "Error: Circular dependency detected"
          else Return (result st, dependencies st).
Proof.
  destruct (sort_run_total commits deps) as (st & Hrun & Hinv & Hq).
  exists st. unfold topological_sort. by rewrite Hrun.
Qed.

Lemma topological_sort_Return commits deps order_ deps' :
  topological_sort commits deps = Return (order_, deps') →
  order_ ≡ₚ seq 0 (length commits) ∧
  (∀ k, k < length commits → deps' !! k = Some ∅).
Proof.
  destruct (topological_sort_cases commits deps) as (st & _ & Hinv & _ & ->).
  case_decide as Hlen; [done|]. intros [= <- <-]. split.
  - by eapply full_result_perm.
  - by eapply full_result_deps_empty.
Qed.

(** C1. For an acyclic set of dependency edges over the indices of the
    commits, [topological_sort] returns normally; the order it returns
    is a permutation of [0..N-1], and for every edge (p, d) the position
    of [p] in it is strictly smaller than the position of [d]. *)
Theorem topological_sort_acyclic commits deps :
  edges_in_range (length commits) deps → acyclic deps →
  ∃ order_ deps',
    topological_sort commits deps = Return (order_, deps') ∧
    order_ ≡ₚ seq 0 (length commits) ∧
    ∀ p d i j, edge deps p d →
               order_ !! i = Some p → order_ !! j = Some d → i < j.
Proof.
  intros Hr Hac.
  destruct (topological_sort_cases commits deps) as (st & _ & Hinv & Hq & ->).
  pose proof (acyclic_full_result _ _ _ Hinv Hq Hr Hac) as Hlen.
  rewrite decide_False by (by intros ?).
  exists (result st), (dependencies st). split_and!; [done | |].
  - by eapply full_result_perm.
  - intros p d i j Hedge Hi Hj.
    destruct (result_respects_edge _ _ _ _ _ _ Hinv Hedge Hj) as (i' & Hlt & Hi').
    by rewrite (NoDup_lookup _ _ _ _ (sort_inv_result_nodup _ _ _ Hinv) Hi Hi').
Qed.

(** C2, as the code has it. For a set of dependency edges over the
    indices of the commits that contains a cycle, [topological_sort]
    returns no order: it ends the process with status 1 after printing
    the fixed text "Error: Circular dependency detected", which names no
    index. *)
Theorem topological_sort_cyclic commits deps :
  edges_in_range (length commits) deps → cyclic deps →
  topological_sort commits deps = SysExit 1 "Error: Circular dependency detected".
Proof.
  intros Hr [k Hk].
  destruct (topological_sort_cases commits deps) as (st & _ & Hinv & Hq & ->).
  case_decide as Hlen; [done|]. exfalso.
  apply (cycle_not_emitted _ _ _ _ Hinv Hk).
  rewrite (full_result_perm _ _ _ Hinv Hlen). apply elem_of_seq.
  apply (tc_edge_range _ _ _ _ Hr) in Hk. lia.
Qed.

(** C10. Sequencing consumes the dependency dictionary it is given:
    when [topological_sort] returns on an acyclic graph, the dictionary
    it leaves behind maps every node to the empty set. *)
Theorem topological_sort_empties_graph commits deps :
  edges_in_range (length commits) deps → acyclic deps →
  ∃ order_ deps',
    topological_sort commits deps = Return (order_, deps') ∧
    ∀ k, k < length commits → deps' !! k = Some ∅.
Proof.
  intros Hr Hac.
  destruct (topological_sort_cases commits deps) as (st & _ & Hinv & Hq & Hts).
  pose proof (acyclic_full_result _ _ _ Hinv Hq Hr Hac) as Hlen.
  rewrite decide_False in Hts by (by intros ?).
  exists (result st), (dependencies st). split; [done|].
  by eapply topological_sort_Return.
Qed.


Lemma topological_sort_acyclic_witness :
  ∃ order_ deps',
    topological_sort scenario_B graph_B = Return (order_, deps') ∧
    order_ ≡ₚ seq 0 (length scenario_B) ∧
    ∀ p d i j, edge graph_B p d →
               order_ !! i = Some p → order_ !! j = Some d → i < j.
Proof.
  apply (topological_sort_acyclic scenario_B graph_B).
  - apply in_range_check_sound. unfold in_range_check.
    apply (bool_decide_unpack _). vm_compute. exact I.
  - apply forward_acyclic. unfold forward_check.
    apply (bool_decide_unpack _). vm_compute. exact I.
Defined.

Lemma cycle_01_cyclic : cyclic cycle_01.
Proof.
  exists 0. apply tc_l with 1; [|apply tc_once].
  - apply edge_lookup. exists {[0]}. split; [done | set_solver].
  - apply edge_lookup. exists {[1]}. split; [done | set_solver].
Qed.

Lemma topological_sort_cyclic_witness :
  topological_sort three_feats cycle_01 = SysExit 1 "Error: Circular dependency detected".
Proof.
  apply (topological_sort_cyclic three_feats cycle_01).
  - apply in_range_check_sound. unfold in_range_check.
    apply (bool_decide_unpack _). vm_compute. exact I.
  - exact cycle_01_cyclic.
Defined.

Lemma topological_sort_empties_graph_witness :
  ∃ order_ deps',
    topological_sort scenario_B graph_B = Return (order_, deps') ∧
    ∀ k, k < length scenario_B → deps' !! k = Some ∅.
Proof.
  apply (topological_sort_empties_graph scenario_B graph_B).
  - apply in_range_check_sound. unfold in_range_check.
    apply (bool_decide_unpack _). vm_compute. exact I.
  - apply forward_acyclic. unfold forward_check.
    apply (bool_decide_unpack _). vm_compute. exact I.
Defined.

(** C2, as stated, fails: the failure does not report the set of indices
    without a position. Two graphs on the same commits leave different
    sets unresolved, and the caller sees the same thing for both. *)
Lemma cyclic_failure_names_no_index :
  topological_sort three_feats cycle_01 = topological_sort three_feats cycle_12 ∧
  unresolved three_feats cycle_01 = {[0; 1]} ∧
  unresolved three_feats cycle_12 = {[1; 2]} ∧
  unresolved three_feats cycle_01 ≠ unresolved three_feats cycle_12 ∧
  ∀ report : outcome (list nat * gmap nat (gset nat)) → gset nat,
    ¬ (report (topological_sort three_feats cycle_01) = unresolved three_feats cycle_01 ∧
       report (topological_sort three_feats cycle_12) = unresolved three_feats cycle_12).
Proof.
  assert (topological_sort three_feats cycle_01 = topological_sort three_feats cycle_12)
    as Heq by (vm_compute; reflexivity).
  assert (unresolved three_feats cycle_01 = {[0; 1]}) as H01 by (vm_compute; reflexivity).
  assert (unresolved three_feats cycle_12 = {[1; 2]}) as H12 by (vm_compute; reflexivity).
  assert (unresolved three_feats cycle_01 ≠ unresolved three_feats cycle_12) as Hne.
  { rewrite H01, H12. intros He.
    assert (0 ∈ ({[1; 2]} : gset nat)) as H0 by (rewrite <- He; set_solver).
    set_solver. }
  split_and!; try done.
  intros report [Ha Hb]. rewrite Heq in Ha. congruence.
Qed.

(** *** Ties in the ready queue *)

Lemma released_sorted node st n : StronglySorted lt (released node st n).
Proof.
  unfold released. generalize 0.
  induction n as [|n IH]; intros a; simpl; [constructor|].
  rewrite filter_cons. case_decide; [|apply IH].
  constructor; [apply IH|].
  apply Forall_forall. intros k [_ Hk%elem_of_seq]%list_elem_of_filter. lia.
Qed.

(** C3, as the code has it. The ready queue is sorted by type priority
    alone, with a stable sort, and the head is emitted: of two queued
    nodes of equal priority the one that stands earlier in the queue is
    emitted first, whatever their indices. Nodes enter the queue at its
    end, those released by one emission in ascending index. *)
Theorem ready_queue_order_kept commits st node rest x y :
  sort_by (priority commits) (queue st) = node :: rest →
  before x y (queue st) →
  priority commits x = priority commits y →
  ∃ new,
    result (sort_turn commits st) = (result st ++ [node])%list ∧
    queue (sort_turn commits st) = (rest ++ new)%list ∧
    StronglySorted lt new ∧
    ((node = x ∧ y ∈ rest) ∨ before x y rest).
Proof.
  intros Hs Hb Hp.
  destruct (sort_turn_spec commits st node rest Hs) as (_ & _ & _ & Hq & Hr).
  exists (released node st (length commits)). split_and!; [done | done | |].
  - apply released_sorted.
  - apply (sort_by_before (priority commits)) in Hb; [|lia].
    rewrite Hs in Hb. by apply before_inv_cons in Hb.
Qed.

Lemma ready_queue_order_kept_witness :
  ∃ new,
    result (sort_turn two_docs (sort_turn two_docs (sort_turn two_docs
              (sort_init two_docs graph_two_docs)))) = [0; 2; 3] ∧
    queue (sort_turn two_docs (sort_turn two_docs (sort_turn two_docs
              (sort_init two_docs graph_two_docs)))) = ([1] ++ new)%list ∧
    StronglySorted lt new ∧
    ((3 = 3 ∧ 1 ∈ [1]) ∨ before 3 1 [1]).
Proof.
  apply (ready_queue_order_kept two_docs
           (sort_turn two_docs (sort_turn two_docs (sort_init two_docs graph_two_docs)))
           3 [1] 3 1).
  - vm_compute. reflexivity.
  - exists [], [], []. vm_compute. reflexivity.
  - vm_compute. reflexivity.
Defined.

(** C3, as stated, fails: nodes 1 and 3 have the same type, both wait in
    the ready queue after two emissions, and node 3, which became ready
    first, is emitted before node 1. *)
Lemma larger_index_emitted_first :
  let st := sort_turn two_docs (sort_turn two_docs (sort_init two_docs graph_two_docs)) in
  queue st = [3; 1] ∧
  priority two_docs 3 = priority two_docs 1 ∧
  result (sort_turn two_docs st) = [0; 2; 3] ∧
  ∃ deps', topological_sort two_docs graph_two_docs = Return ([0; 2; 3; 1], deps').
Proof.
  split_and!; [by vm_compute..|]. eexists. vm_compute. reflexivity.
Qed.

End SequencingFacts.

Import SequencingFacts.

(** ** The dependency graph builder *)

Module BuildFacts.

Lemma for_each_inv {A S : Type} (body : S → A → outcome S)
    (P : list A → S → Prop) xs s s' :
  P [] s →
  (∀ pre x s1 s2, P pre s1 → body s1 x = Return s2 → P (pre ++ [x])%list s2) →
  for_each body xs s = Return s' → P xs s'.
Proof.
  intros H0 Hstep. change xs with ([] ++ xs)%list at 2.
  generalize (@nil A) s H0. induction xs as [|x xs IH]; intros pre s1 Hpre; simpl.
  - intros [= <-]. by rewrite app_nil_r.
  - destruct (body s1 x) as [s2| | |] eqn:Hb; simpl; try done.
    intros Hrest. rewrite cons_middle, app_assoc. apply (IH _ s2); [|done].
    by eapply Hstep.
Qed.

Lemma elem_of_enumerate {A : Type} (l : list A) i x :
  (i, x) ∈ enumerate l ↔ l !! i = Some x.
Proof.
  unfold enumerate.
  assert (∀ a, (i, x) ∈ combine (seq a (length l)) l ↔ a ≤ i ∧ l !! (i - a) = Some x) as H.
  { induction l as [|y l IH]; intros a; simpl.
    - rewrite elem_of_nil, lookup_nil. naive_solver.
    - rewrite elem_of_cons, IH. split.
      + intros [[= -> ->]|[Hle Hl]].
        * split; [lia|]. by rewrite Nat.sub_diag.
        * split; [lia|]. by replace (i - a) with (S (i - S a)) by lia.
      + intros [Hle Hl]. destruct (decide (i = a)) as [->|Hne].
        * left. rewrite Nat.sub_diag in Hl. simpl in Hl. by injection Hl as ->.
        * right. split; [lia|]. by replace (i - a) with (S (i - S a)) in Hl by lia. }
  rewrite H, Nat.sub_0_r. split; [by intros [_ ?] | split; [lia | done]].
Qed.

Lemma edge_add_edge g j i p d :
  edge (add_edge g j i) p d ↔ edge g p d ∨ (p = i ∧ d = j).
Proof.
  unfold add_edge, edge.
  pose proof (getitem_fst g j) as Hfst. pose proof (getitem_snd g j) as Hsnd.
  destruct (getitem g j) as [s g1]. simpl in *. subst s.
  rewrite dget_insert. destruct (decide (j = d)) as [->|Hne].
  - rewrite elem_of_union, elem_of_singleton. naive_solver.
  - rewrite Hsnd. naive_solver.
Qed.

Lemma edge_empty p d : ¬ edge ∅ p d.
Proof. unfold edge, dget. rewrite lookup_empty. simpl. apply not_elem_of_empty. Qed.

Section WithGit.

Variable git_show : string → option string.

(** The edges [build_dependency_graph] returns are those
    [detect_dependencies] finds between two different commits. *)
Lemma build_edges commits g :
  build_dependency_graph git_show commits = Return g →
  ∀ p d, edge g p d ↔
    ∃ c1 c2, commits !! p = Some c1 ∧ commits !! d = Some c2 ∧ p ≠ d ∧
             detect_dependencies git_show c1 c2 = Return true.
Proof.
  unfold build_dependency_graph. intros Hb.
  pose (P := fun (pre : list (nat * Commit)) (g : gmap nat (gset nat)) =>
    ∀ p d, edge g p d ↔
      ∃ c1 c2, (p, c1) ∈ pre ∧ commits !! d = Some c2 ∧ p ≠ d ∧
               detect_dependencies git_show c1 c2 = Return true).
  assert (P (enumerate commits) g) as HP.
  { eapply (for_each_inv _ P); [ | | exact Hb].
    - intros p d. split; [by intros ?%edge_empty|].
      by intros (c1 & c2 & ?%elem_of_nil & _).
    - intros pre [i c1] g1 g2 Hpre Hinner.
      pose (Q := fun (pre2 : list (nat * Commit)) (g : gmap nat (gset nat)) =>
        ∀ p d, edge g p d ↔ edge g1 p d ∨
          (p = i ∧ ∃ c2, (d, c2) ∈ pre2 ∧ i ≠ d ∧
                         detect_dependencies git_show c1 c2 = Return true)).
      assert (Q (enumerate commits) g2) as HQ.
      { eapply (for_each_inv _ Q); [ | | exact Hinner].
        - intros p d. split; [by left|].
          intros [?|(_ & c2 & ?%elem_of_nil & _)]; done.
        - intros pre2 [j c2] h1 h2 Hq Hbody p d. unfold Q in Hq. simpl in Hbody.
          case_decide as Hij.
          + destruct (detect_dependencies git_show c1 c2) as [[|]| | |] eqn:Hdet;
              simpl in Hbody; try done; injection Hbody as <-.
            * rewrite edge_add_edge, Hq. split.
              -- intros [[?|(-> & c & Hin & ? & ?)]|[-> ->]].
                 ++ by left.
                 ++ right. split; [done|]. exists c.
                    rewrite elem_of_app. by eauto.
                 ++ right. split; [done|]. exists c2.
                    rewrite elem_of_app, list_elem_of_singleton. by eauto.
              -- intros [?|(-> & c & [Hin|[= -> ->]%list_elem_of_singleton]%elem_of_app & ? & ?)].
                 ++ by left; left.
                 ++ left. right. by eauto.
                 ++ by right.
            * rewrite Hq. split.
              -- intros [?|(-> & c & Hin & ? & ?)]; [by left|].
                 right. split; [done|]. exists c. rewrite elem_of_app. by eauto.
              -- intros [?|(-> & c & [Hin|[= -> ->]%list_elem_of_singleton]%elem_of_app & ? & Hc)].
                 ++ by left.
                 ++ right. by eauto.
                 ++ congruence.
          + injection Hbody as <-. rewrite Hq. split.
            * intros [?|(-> & c & Hin & ? & ?)]; [by left|].
              right. split; [done|]. exists c. rewrite elem_of_app. by eauto.
            * intros [?|(-> & c & [Hin|[= -> ->]%list_elem_of_singleton]%elem_of_app & Hne & Hc)].
              -- by left.
              -- right. by eauto.
              -- by destruct Hij. }
      unfold Q in HQ. unfold P in Hpre. intros p d. rewrite (HQ p d), (Hpre p d). split.
      + intros [(c & c2 & Hin & ?)|(-> & c2 & Hin & ? & ?)].
        * exists c, c2. rewrite elem_of_app. naive_solver.
        * exists c1, c2. rewrite elem_of_app, list_elem_of_singleton.
          apply elem_of_enumerate in Hin. naive_solver.
      + intros (c & c2 & [Hin|[= -> ->]%list_elem_of_singleton]%elem_of_app & Hd & ? & ?).
        * left. by eauto 10.
        * right. split; [done|]. exists c2. by rewrite elem_of_enumerate. }
  unfold P in HP. intros p d. rewrite (HP p d). by setoid_rewrite elem_of_enumerate.
Qed.

(** C4, as the code has it. The builder has no contradiction check: when
    the rules derive both (i, j) and (j, i) and the builder returns, the
    graph it returns contains both edges. *)
Theorem build_keeps_both_directions commits g i j c1 c2 :
  build_dependency_graph git_show commits = Return g →
  commits !! i = Some c1 → commits !! j = Some c2 → i ≠ j →
  detect_dependencies git_show c1 c2 = Return true →
  detect_dependencies git_show c2 c1 = Return true →
  edge g i j ∧ edge g j i.
Proof.
  intros Hb Hi Hj Hne H12 H21. split; apply (build_edges commits g Hb).
  - by exists c1, c2.
  - by exists c2, c1.
Qed.

End WithGit.

End BuildFacts.


Module PlanFacts.

Import BuildFacts.

Lemma build_keeps_both_directions_witness :
  edge {[ 0 := {[1]}; 1 := {[0]} ]} 0 1 ∧ edge {[ 0 := {[1]}; 1 := {[0]} ]} 1 0.
Proof.
  apply (build_keeps_both_directions mutual_imports mutual_commits
           {[ 0 := {[1]}; 1 := {[0]} ]} 0 1
           {| type := "chore"; scope := None; subject := None; files := Some ["a.py"] |}
           {| type := "chore"; scope := None; subject := None; files := Some ["b.py"] |}).
  - vm_compute. reflexivity.
  - reflexivity.
  - reflexivity.
  - lia.
  - vm_compute. reflexivity.
  - vm_compute. reflexivity.
Defined.

(** C4, as stated, fails: the rules derive both (0, 1) and (1, 0) for
    two commits whose files import each other, and the builder returns a
    graph with both edges instead of failing. *)
Lemma contradiction_not_reported :
  detect_dependencies mutual_imports
    {| type := "chore"; scope := None; subject := None; files := Some ["a.py"] |}
    {| type := "chore"; scope := None; subject := None; files := Some ["b.py"] |}
    = Return true ∧
  detect_dependencies mutual_imports
    {| type := "chore"; scope := None; subject := None; files := Some ["b.py"] |}
    {| type := "chore"; scope := None; subject := None; files := Some ["a.py"] |}
    = Return true ∧
  build_dependency_graph mutual_imports mutual_commits
    = Return {[ 0 := {[1]}; 1 := {[0]} ]}.
Proof. split_and!; vm_compute; reflexivity. Qed.

(** C5: the builder is not total. For a feature without scope and a
    documentation commit, the docs rule evaluates [None in subject] and
    the builder ends with a [TypeError], whatever is staged. *)
Theorem build_raises_on_unset_scope (git_show : string → option string) :
  build_dependency_graph git_show unscoped_feature = Raise TypeError.
Proof. reflexivity. Qed.

(** When [create_sequence] reaches the annotation loop, the dictionary
    has been emptied, so every entry is annotated ['now']. *)
Lemma create_sequence_all_now (git_show : string → option string) commits plan :
  create_sequence git_show commits = Return plan →
  Forall (fun e => can_execute e = now) plan.
Proof.
  unfold create_sequence.
  destruct (build_dependency_graph git_show commits) as [g| | |]; simpl; try done.
  destruct (topological_sort commits g) as [[o d]| | |] eqn:Hts; simpl; try done.
  apply topological_sort_Return in Hts as [_ Hempty].
  destruct (for_each _ _ _) as [[sq d']| | |] eqn:Hfor; simpl; try done.
  intros [= <-].
  pose (P := fun (_ : list (nat * nat)) (s : list PlannedCommit * gmap nat (gset nat)) =>
    Forall (fun e => can_execute e = now) s.1 ∧
    ∀ k, k < length commits → s.2 !! k = Some ∅).
  assert (P (enumerate o) (sq, d')) as [HP _]; [|done].
  eapply (for_each_inv _ P); [ | | exact Hfor].
  - split; [constructor | done].
  - intros pre [idx ci] [sq1 d1] [sq2 d2] [Hall He] Hentry. unfold plan_entry in Hentry.
    destruct (commits !! ci) as [c|] eqn:Hc; [|done].
    apply lookup_lt_Some in Hc as Hlt.
    unfold getitem in Hentry. simpl in He. rewrite (He ci Hlt) in Hentry.
    rewrite decide_True in Hentry by done. simpl in Hentry.
    injection Hentry as <- <-. split; simpl; [|done].
    apply Forall_app. split; [done|]. by repeat constructor.
Qed.

(** Scenario B of the specification: the edges are (0, 1) and (0, 2) and
    the order is 0, 1, 2. *)
Lemma scenario_B_plan (git_show : string → option string) :
  build_dependency_graph git_show scenario_B = Return graph_B ∧
  ∃ deps', topological_sort scenario_B graph_B = Return ([0; 1; 2], deps').
Proof. split; [vm_compute; reflexivity | eexists; vm_compute; reflexivity]. Qed.

(** C8: the annotation does not refer to a predecessor. In Scenario-B
    style input the test commit depends on the feature commit, edge
    (0, 1), and is still annotated ['now'] instead of ['after commit 1']. *)
Theorem dependent_commit_annotated_now (git_show : string → option string) :
  build_dependency_graph git_show feature_and_test = Return {[ 1 := {[0]} ]} ∧
  create_sequence git_show feature_and_test =
    Return [ {| commit := descriptor "feat" (Some "auth") (Some "add login");
                order := 1; commit_id := 1; original_id := 0; can_execute := now |};
             {| commit := descriptor "test" (Some "auth") (Some "test login");
                order := 2; commit_id := 2; original_id := 1; can_execute := now |} ].
Proof. split; vm_compute; reflexivity. Qed.

End PlanFacts.

(** ** The split analyzer *)


Module AnalyzerFacts.


Lemma keys_dict_append d k v :
  keys (dict_append d k v) =
    if has_key d k then keys d else (keys d ++ [k])%list.
Proof.
  unfold has_key, keys. induction d as [|[k' vs] d IH]; simpl; [done|].
  rewrite (String.eqb_sym k k'). destruct (String.eqb k' k) eqn:Hk; simpl; [done|].
  rewrite IH. by destruct (existsb _ _).
Qed.

Lemma has_key_elem_of d k : has_key d k = true ↔ k ∈ keys d.
Proof.
  unfold has_key. rewrite existsb_exists. split.
  - intros (x & Hin & ->%String.eqb_eq). by apply list_elem_of_In.
  - intros Hin. exists k. split; [by apply list_elem_of_In | apply String.eqb_refl].
Qed.

Lemma keys_dict_append_elem_of d k v x :
  x ∈ keys (dict_append d k v) ↔ x ∈ keys d ∨ x = k.
Proof.
  rewrite keys_dict_append. destruct (has_key d k) eqn:Hk.
  - apply has_key_elem_of in Hk. split; [by left | by intros [?| ->]].
  - rewrite elem_of_app, list_elem_of_singleton. done.
Qed.

Lemma keys_dict_append_NoDup d k v :
  NoDup (keys d) → NoDup (keys (dict_append d k v)).
Proof.
  intros Hnd. rewrite keys_dict_append. destruct (has_key d k) eqn:Hk; [done|].
  apply NoDup_app. split_and!; [done | | apply NoDup_singleton].
  intros x Hx ->%list_elem_of_singleton.
  apply has_key_elem_of in Hx. congruence.
Qed.

Section WithGit.

Variables git_diff_cached git_diff : string → option string.

(** The two dictionaries are filled independently of each other. *)
Lemma record_files_split files t0 s0 :
  foldl (record_file git_diff_cached git_diff) (t0, s0) files =
    (collect (file_type git_diff_cached git_diff) files t0,
     collect extract_scope_from_path files s0).
Proof.
  unfold collect.
  revert t0 s0. induction files as [|f files IH]; intros t0 s0; simpl; [done|].
  unfold record_file at 2. simpl. apply IH.
Qed.

Lemma collect_keys (key : string → string) files d :
  let d' := collect key files d in
  (NoDup (keys d) → NoDup (keys d')) ∧
  ∀ x, x ∈ keys d' ↔ x ∈ keys d ∨ ∃ f, f ∈ files ∧ key f = x.
Proof.
  unfold collect. revert d. induction files as [|f files IH]; intros d; simpl.
  - split; [done|]. intros x. split; [by left|]. intros [?|(f & ?%elem_of_nil & _)]; done.
  - destruct (IH (dict_append d (key f) f)) as [Hnd Hin]. split.
    + intros Hd. by apply Hnd, keys_dict_append_NoDup.
    + intros x. rewrite Hin, keys_dict_append_elem_of. split.
      * intros [[?| ->]|(f' & Hf' & <-)]; [by left | right.. ].
        -- exists f. split; [by left | done].
        -- exists f'. split; [by right | done].
      * intros [?|(f' & [ -> |Hf']%elem_of_cons & <-)].
        -- by left; left.
        -- by left; right.
        -- right. by exists f'.
Qed.


End WithGit.

(** [set(...)] over the lists of the selected scopes raises as soon as
    one scope is selected. *)
Lemma set_of_lists_filter (q : string → bool) (d : list (string * list string)) :
  set_of_lists (map snd (List.filter (fun kv => q (fst kv)) d)) =
    if existsb q (keys d) then Raise TypeError else Return [].
Proof.
  unfold keys. induction d as [|[k vs] d IH]; simpl; [done|].
  destruct (q k); simpl; [done | exact IH].
Qed.


(** With a test file in the change set, [detect_mixed_concerns] raises:
    some scope is selected for one of the two sets of lists. *)
Lemma detect_mixed_concerns_test types scopes :
  has_key types "test" = true → scopes ≠ [] →
  detect_mixed_concerns types scopes = Raise TypeError.
Proof.
  intros Ht Hs. unfold detect_mixed_concerns. rewrite Ht.
  rewrite (set_of_lists_filter (fun k => contains k "test") scopes).
  rewrite (set_of_lists_filter (fun k => negb (contains k "test")) scopes).
  destruct (existsb (fun k => contains k "test") (keys scopes)) eqn:He; [done|].
  simpl. destruct scopes as [|[k vs] scopes]; [done|]. simpl in *.
  apply orb_false_elim in He as [-> _]. done.
Qed.

Lemma detect_mixed_concerns_no_test types scopes :
  has_key types "test" = false →
  ∃ cs, detect_mixed_concerns types scopes = Return cs.
Proof. intros Ht. unfold detect_mixed_concerns. rewrite Ht. eauto. Qed.


Lemma login_test_type diff : detect_type_from_diff "src/auth/login.test.ts" diff = "test".
Proof. reflexivity. Qed.

Lemma login_type diff :
  detect_type_from_diff "src/auth/login.ts" diff
    ∈ ["chore"; "feat"; "fix"; "refactor"; "perf"; "style"].
Proof.
  unfold detect_type_from_diff.
  change (any (endswith "src/auth/login.ts") _) with false at 1.
  change (any (contains "src/auth/login.ts") _) with false at 1.
  change (any (contains "src/auth/login.ts") _) with false at 1.
  change (any (endswith "src/auth/login.ts") _) with false at 1.
  cbv iota.
  repeat match goal with
         | |- context [if ?b then _ else _] => destruct b
         end; set_solver.
Qed.

(** *** The histograms under another listing *)






Section Claims.

Variables git_diff_cached git_diff : string → option string.



(** With a test file in the change set, [analyze] ends in [TypeError]. *)
Lemma analyze_raises_with_test threshold_ files f :
  f ∈ files →
  detect_type_from_diff f (get_file_diff git_diff_cached git_diff f) = "test" →
  analyze git_diff_cached git_diff threshold_ files = Raise TypeError.
Proof.
  intros Hf Hty. destruct files as [|f0 fs]; [by apply elem_of_nil in Hf|].
  unfold analyze. rewrite record_files_split. cbv beta iota.
  rewrite detect_mixed_concerns_test; [done| |].
  - apply has_key_elem_of.
    apply (collect_keys (file_type git_diff_cached git_diff)).
    right. by exists f.
  - intros He.
    destruct (collect_keys extract_scope_from_path (f0 :: fs) []) as [_ Hin].
    assert (extract_scope_from_path f0 ∈
            keys (collect extract_scope_from_path (f0 :: fs) [])) as Hk.
    { apply Hin. right. exists f0. split; [by left | done]. }
    rewrite He in Hk. by apply elem_of_nil in Hk.
Qed.

(** When [analyze] returns, the verdict is [true] exactly when one of
    the four checks gave a reason, and the reasons are joined in the
    order of the checks. *)
Lemma analyze_returns_verdict threshold_ files b reason metrics :
  files ≠ [] →
  analyze git_diff_cached git_diff threshold_ files = Return (b, reason, metrics) →
  let types := collect (file_type git_diff_cached git_diff) files [] in
  let scopes := collect extract_scope_from_path files [] in
  ∃ cs, detect_mixed_concerns types scopes = Return cs ∧
    let reasons := (split_reasons types scopes (length files) threshold_ ++
                    match cs with [] => [] | _ :: _ => [concerns_reason cs] end)%list in
    (b = true ↔ reasons ≠ []) ∧ (b = true → reason = join "; " reasons).
Proof.
  intros Hne. destruct files as [|f0 fs]; [done|].
  unfold analyze. rewrite record_files_split. cbv beta iota zeta.
  destruct (detect_mixed_concerns _ _) as [cs| | |]; [|done..].
  simpl. intros Hret. exists cs. split; [done|].
  destruct cs as [|c cs]; [rewrite app_nil_r|];
    destruct (split_reasons _ _ _ _) as [|r0 rs]; simpl in Hret;
    injection Hret as <- <- <-; (split; [by split | done]).
Qed.

(** C7: [analyze] does not return for every non-empty change set. For
    the single test file [src/auth/login.test.ts] and threshold 10 the
    mixed-concerns check builds a set of lists and the call ends in
    [TypeError] instead of returning a verdict. *)
Theorem analyze_raises_on_test_file :
  analyze git_diff_cached git_diff 10 ["src/auth/login.test.ts"] = Raise TypeError.
Proof. reflexivity. Qed.

(** C6, as the code has it. For the two files of Scenario A and
    threshold 10, in either order, the inferred types are two (the type
    of [login.ts] and [test]), the only scope is [auth], of the first
    three checks the multiple-types check alone gives a reason, and
    [analyze] never returns [should_split = false]. *)
Theorem scenario_A_is_not_atomic files :
  files ≡ₚ scenario_A →
  let '(types, scopes) := foldl (record_file git_diff_cached git_diff) ([], []) files in
  length types = 2 ∧ has_key types "test" = true ∧ keys scopes = ["auth"] ∧
  split_reasons types scopes (length files) 10 = [types_reason types] ∧
  ∀ reason metrics, analyze git_diff_cached git_diff 10 files ≠ Return (false, reason, metrics).
Proof.
  intros Hp. symmetry in Hp. apply Permutation_length_2_inv in Hp.
  pose proof (login_type (get_file_diff git_diff_cached git_diff "src/auth/login.ts")) as Hl.
  pose proof (login_test_type
                (get_file_diff git_diff_cached git_diff "src/auth/login.test.ts")) as Ht.
  destruct Hp as [-> | ->]; unfold analyze, scenario_A;
    rewrite !record_files_split; unfold collect, file_type; cbn [foldl]; rewrite Ht;
    repeat (apply elem_of_cons in Hl as [-> | Hl]);
    try (by apply elem_of_nil in Hl);
    (split_and!; [reflexivity.. | intros reason metrics; vm_compute; discriminate]).
Qed.

End Claims.

Lemma scenario_A_is_not_atomic_witness :
  let '(types, scopes) := foldl (record_file no_diff no_diff) ([], []) scenario_A in
  length types = 2 ∧ has_key types "test" = true ∧ keys scopes = ["auth"] ∧
  split_reasons types scopes (length scenario_A) 10 = [types_reason types] ∧
  ∀ reason metrics, analyze no_diff no_diff 10 scenario_A ≠ Return (false, reason, metrics).
Proof. apply (scenario_A_is_not_atomic no_diff no_diff scenario_A). reflexivity. Defined.

(** C6, as stated, fails: on Scenario A [analyze] does not return
    [should_split = false]; the call ends in [TypeError]. *)
Lemma scenario_A_does_not_return_false :
  analyze no_diff no_diff 10 scenario_A = Raise TypeError ∧
  ∀ reason metrics, analyze no_diff no_diff 10 scenario_A ≠ Return (false, reason, metrics).
Proof. split; [reflexivity | intros reason metrics; vm_compute; discriminate]. Qed.

Lemma staged_two_listing files :
  NoDup files → files ≡ₚ ["README.md"; "src/a/x.py"] →
  get_changed_files staged_two EmptyString files.
Proof.
  intros Hnd Hp. split; [done|]. intros f. rewrite Hp.
  by change (changed_names staged_two EmptyString) with ["README.md"; "src/a/x.py"].
Qed.


End AnalyzerFacts.

Import BuildFacts PlanFacts AnalyzerFacts.

(** ** More on the sequencer *)

Module SequencingMore.

(** X1. [topological_sort] always ends: the loop empties the queue
    within [len(commits)] turns, and the call either returns an order or
    exits with status 1; it never raises. *)
Theorem topological_sort_ends commits deps :
  (∃ st, sort_run commits deps = Some st ∧ queue st = []) ∧
  ((∃ order_ deps', topological_sort commits deps = Return (order_, deps')) ∨
   topological_sort commits deps = SysExit 1 "Error: Circular dependency detected").
Proof.
  destruct (topological_sort_cases commits deps) as (st & Hrun & _ & Hq & ->).
  split; [by eauto|]. case_decide; [by right | left; by eauto].
Qed.

(** X2. Whatever the dictionary, an order that [topological_sort]
    returns is a permutation of [0..N-1] in which every node stands
    after all the nodes its entry of the dictionary names. *)
Theorem topological_sort_returns_sorted commits deps order_ deps' :
  topological_sort commits deps = Return (order_, deps') →
  order_ ≡ₚ seq 0 (length commits) ∧
  ∀ p d j, edge deps p d → order_ !! j = Some d →
           ∃ i, i < j ∧ order_ !! i = Some p.
Proof.
  destruct (topological_sort_cases commits deps) as (st & _ & Hinv & _ & ->).
  case_decide as Hlen; [done|]. intros [= <- <-]. split.
  - by eapply full_result_perm.
  - intros p d j Hedge Hj. by eapply result_respects_edge.
Qed.

Lemma topological_sort_returns_sorted_witness :
  [0; 1; 2] ≡ₚ seq 0 (length scenario_B) ∧
  ∀ p d j, edge graph_B p d → [0; 1; 2] !! j = Some d →
           ∃ i, i < j ∧ [0; 1; 2] !! i = Some p.
Proof.
  apply (topological_sort_returns_sorted scenario_B graph_B [0; 1; 2]
           {[ 0 := ∅; 1 := ∅; 2 := ∅ ]}).
  vm_compute. reflexivity.
Defined.

(** X3. For edges over the indices of the commits, [topological_sort]
    returns exactly when the edges have no cycle. *)
Theorem topological_sort_returns_iff_acyclic commits deps :
  edges_in_range (length commits) deps →
  (∃ order_ deps', topological_sort commits deps = Return (order_, deps')) ↔
  acyclic deps.
Proof.
  intros Hr.
  destruct (topological_sort_cases commits deps) as (st & _ & Hinv & Hq & ->).
  split.
  - intros (o & d' & Hret) k Hk. case_decide as Hlen; [done|].
    apply (cycle_not_emitted _ _ _ _ Hinv Hk).
    rewrite (full_result_perm _ _ _ Hinv Hlen). apply elem_of_seq.
    apply (tc_edge_range _ _ _ _ Hr) in Hk. lia.
  - intros Hac. pose proof (acyclic_full_result _ _ _ Hinv Hq Hr Hac) as Hlen.
    rewrite decide_False by (by intros ?). by eauto.
Qed.

Lemma topological_sort_returns_iff_acyclic_witness :
  (∃ order_ deps', topological_sort three_feats cycle_01 = Return (order_, deps')) ↔
  acyclic cycle_01.
Proof.
  apply (topological_sort_returns_iff_acyclic three_feats cycle_01).
  apply in_range_check_sound. unfold in_range_check.
  apply (bool_decide_unpack _). vm_compute. exact I.
Defined.

(** X4. A dependency on an index that is no commit can never be met:
    the node never becomes ready and the call ends with the
    circular-dependency exit. *)
Theorem dangling_dependency_exits commits deps p d :
  d < length commits → edge deps p d → length commits ≤ p →
  topological_sort commits deps = SysExit 1 "Error: Circular dependency detected".
Proof.
  intros Hd Hedge Hp.
  destruct (topological_sort_cases commits deps) as (st & _ & Hinv & _ & ->).
  case_decide as Hlen; [done|]. exfalso.
  pose proof (full_result_perm _ _ _ Hinv Hlen) as Hperm.
  assert (d ∈ result st) as [j Hj]%list_elem_of_lookup.
  { rewrite Hperm. apply elem_of_seq. lia. }
  destruct (result_respects_edge _ _ _ _ _ _ Hinv Hedge Hj) as (i & _ & Hi).
  apply list_elem_of_lookup_2 in Hi. rewrite Hperm in Hi.
  apply elem_of_seq in Hi. lia.
Qed.

Lemma dangling_dependency_exits_witness :
  topological_sort three_feats {[ 0 := {[7]} ]}
    = SysExit 1 "Error: Circular dependency detected".
Proof.
  apply (dangling_dependency_exits three_feats {[ 0 := {[7]} ]} 7 0).
  - vm_compute. lia.
  - apply edge_lookup. exists {[7]}. split; [done | set_solver].
  - vm_compute. lia.
Defined.

(** *** Priorities *)

Lemma insert_by_sorted key x l :
  StronglySorted (fun a b => (key a ≤ key b)%nat) l →
  StronglySorted (fun a b => (key a ≤ key b)%nat) (insert_by key x l).
Proof.
  induction 1 as [|y l Hs IH Hall]; simpl.
  - by repeat constructor.
  - destruct (key x <=? key y)%nat eqn:Hle.
    + apply Nat.leb_le in Hle. constructor; [by constructor|].
      constructor; [done|]. eapply Forall_impl; [exact Hall|]. simpl. lia.
    + apply Nat.leb_gt in Hle. constructor; [done|].
      rewrite (insert_by_perm key x l). constructor; [lia | done].
Qed.

Lemma sort_by_sorted key l :
  StronglySorted (fun a b => (key a ≤ key b)%nat) (sort_by key l).
Proof. induction l as [|x l IH]; simpl; [constructor | by apply insert_by_sorted]. Qed.

Lemma sort_by_sorted_id key l :
  StronglySorted (fun a b => (key a ≤ key b)%nat) l → sort_by key l = l.
Proof.
  induction 1 as [|x l Hs IH Hall]; simpl; [done|]. rewrite IH.
  destruct l as [|y l]; [done|]. simpl.
  apply Forall_cons in Hall as [Hxy _]. apply Nat.leb_le in Hxy. by rewrite Hxy.
Qed.

(** X5. The node emitted in a turn of the loop is a ready node of
    lowest priority value. *)
Theorem emitted_node_has_lowest_priority commits st :
  queue st ≠ [] →
  ∃ node, result (sort_turn commits st) = (result st ++ [node])%list ∧
          node ∈ queue st ∧
          ∀ x, x ∈ queue st → priority commits node ≤ priority commits x.
Proof.
  intros Hq.
  destruct (sort_by_nonempty (priority commits) _ Hq) as (node & rest & Hs).
  destruct (sort_turn_spec commits st node rest Hs) as (_ & _ & _ & _ & Hr).
  pose proof (sort_by_perm (priority commits) (queue st)) as Hperm.
  pose proof (sort_by_sorted (priority commits) (queue st)) as Hsorted.
  rewrite Hs in Hperm, Hsorted. exists node. split_and!; [done | |].
  - rewrite <- Hperm. by left.
  - intros x Hx. rewrite <- Hperm in Hx.
    apply StronglySorted_inv in Hsorted as [_ Hall].
    apply elem_of_cons in Hx as [->|Hx]; [done|].
    rewrite Forall_forall in Hall. by apply Hall.
Qed.

Lemma emitted_node_has_lowest_priority_witness :
  ∃ node, result (sort_turn two_docs (sort_init two_docs graph_two_docs))
            = ([] ++ [node])%list ∧
          node ∈ queue (sort_init two_docs graph_two_docs) ∧
          ∀ x, x ∈ queue (sort_init two_docs graph_two_docs) →
               priority two_docs node ≤ priority two_docs x.
Proof.
  apply (emitted_node_has_lowest_priority two_docs (sort_init two_docs graph_two_docs)).
  vm_compute. discriminate.
Defined.


(** *** Commits without dependencies *)

Lemma filter_all {A : Type} (P : A → Prop) `{∀ x, Decision (P x)} (l : list A) :
  Forall P l → filter P l = l.
Proof.
  induction 1 as [|x l Hx _ IH]; [done|]. by rewrite filter_cons_True, IH.
Qed.

Lemma released_none node st n :
  (∀ k, k < n → dget (dependencies st) k = ∅) → released node st n = [].
Proof.
  intros He. unfold released.
  destruct (filter _ (seq 0 n)) as [|k l] eqn:Hf; [done|]. exfalso.
  assert (k ∈ k :: l) as Hk by (by left). rewrite <- Hf in Hk.
  apply list_elem_of_filter in Hk as [[Hm _] Hk%elem_of_seq].
  rewrite He in Hm by lia. by apply not_elem_of_empty in Hm.
Qed.

Lemma sort_loop_no_deps commits fuel st :
  (∀ k, k < length commits → dget (dependencies st) k = ∅) →
  length (queue st) ≤ fuel →
  ∃ st', sort_loop fuel commits st = Some st' ∧
         result st' = (result st ++ sort_by (priority commits) (queue st))%list.
Proof.
  revert st. induction fuel as [|fuel IH]; intros st He Hfuel.
  - destruct (queue st) as [|x q] eqn:Hq; [|simpl in Hfuel; lia].
    exists st. simpl. rewrite Hq. by rewrite app_nil_r.
  - simpl. destruct (queue st) as [|x q] eqn:Hq.
    { exists st. by rewrite app_nil_r. }
    rewrite <- Hq in *.
    assert (queue st ≠ []) as Hne by (by rewrite Hq).
    destruct (sort_by_nonempty (priority commits) _ Hne) as (node & rest & Hs).
    destruct (sort_turn_spec commits st node rest Hs) as (Hd & _ & _ & Hq' & Hr).
    rewrite released_none, app_nil_r in Hq' by done.
    pose proof (sort_by_sorted (priority commits) (queue st)) as Hsorted.
    rewrite Hs in Hsorted. apply StronglySorted_inv in Hsorted as [Hrest _].
    pose proof (Permutation_length (sort_by_perm (priority commits) (queue st))) as Hlen.
    rewrite Hs in Hlen. simpl in Hlen.
    destruct (IH (sort_turn commits st)) as (st' & Hloop & Hres).
    + intros k Hk. rewrite Hd, decide_True, He by done. set_solver.
    + rewrite Hq'. lia.
    + exists st'. split; [done|].
      rewrite Hres, Hr, Hq', Hs, (sort_by_sorted_id _ _ Hrest), <- app_assoc. done.
Qed.

(** X6. When no commit depends on another, the order returned is the
    stable sort of the indices by type priority: commits come grouped
    by type, in the order of [TYPE_PRIORITY], each group in input
    order. *)
Theorem no_dependencies_priority_order commits deps :
  (∀ k, k < length commits → dget deps k = ∅) →
  ∃ deps', topological_sort commits deps =
             Return (sort_by (priority commits) (seq 0 (length commits)), deps').
Proof.
  intros He. unfold topological_sort, sort_run.
  pose proof (sort_init_inv commits deps) as Hinv.
  assert (queue (sort_init commits deps) = seq 0 (length commits)) as Hq.
  { unfold sort_init in *.
    pose proof (init_in_degree_spec (length commits) deps) as Hspec.
    destruct (init_in_degree (length commits) deps) as [ind d]. simpl.
    destruct Hspec as (_ & _ & Hi). apply filter_all, Forall_forall.
    intros k Hk%elem_of_seq. rewrite Hi, He by lia. by rewrite size_empty. }
  assert (result (sort_init commits deps) = []) as Hr.
  { unfold sort_init. by destruct (init_in_degree _ _). }
  destruct (sort_loop_no_deps commits (length commits) (sort_init commits deps))
    as (st' & -> & Hres).
  - intros k Hk. rewrite (inv_deps _ _ _ Hinv k Hk), He by done.
    set_solver.
  - rewrite Hq, length_seq. lia.
  - rewrite Hr, Hq in Hres. simpl in Hres. rewrite Hres.
    pose proof (Permutation_length (sort_by_perm (priority commits)
                                      (seq 0 (length commits)))) as Hlen.
    rewrite length_seq in Hlen. rewrite decide_False by (intros Hn; by apply Hn).
    by eauto.
Qed.

Lemma no_dependencies_priority_order_witness :
  ∃ deps', topological_sort two_docs ∅ =
             Return (sort_by (priority two_docs) (seq 0 (length two_docs)), deps').
Proof.
  apply (no_dependencies_priority_order two_docs ∅).
  intros k _. unfold dget. by rewrite lookup_empty.
Defined.

End SequencingMore.

(** ** More on the builder and the plan *)



Module BuildMore.

(** A loop whose body, on each element, either raises [e] or returns,
    according to a property of the element alone. *)
Lemma for_each_cases {A S : Type} (body : S → A → outcome S) (B : A → Prop) xs s e :
  (∀ s1 x, x ∈ xs → (B x ∧ body s1 x = Raise e) ∨
                     (¬ B x ∧ ∃ s2, body s1 x = Return s2)) →
  ((∃ x, x ∈ xs ∧ B x) ∧ for_each body xs s = Raise e) ∨
  (¬ (∃ x, x ∈ xs ∧ B x) ∧ ∃ s', for_each body xs s = Return s').
Proof.
  revert s. induction xs as [|x xs IH]; intros s Hall.
  - right. split; [by intros (x & ?%elem_of_nil & _) | simpl; by eauto].
  - simpl. destruct (Hall s x) as [[Hb Hr]|[Hb [s2 Hr]]]; [by left | |]; rewrite Hr.
    + left. split; [|done]. exists x. split; [by left | done].
    + simpl. destruct (IH s2) as [[(y & Hy & Hby) Hf]|[Hno Hf]].
      * intros s1 y Hy. apply Hall. by right.
      * left. split; [|done]. exists y. split; [by right | done].
      * right. split; [|done]. intros (y & [->|Hy]%elem_of_cons & Hby); [done|].
        apply Hno. by exists y.
Qed.

Lemma type_eqb_const (t c : string) : String.eqb t c = true → t = c.
Proof. apply String.eqb_eq. Qed.

Section WithGit.

Variable git_show : string → option string.

(** [detect_dependencies] raises on the pairs described above and
    answers on all others. *)
Lemma detect_dependencies_cases c1 c2 :
  (unscoped_docs_pair c1 c2 ∧ detect_dependencies git_show c1 c2 = Raise TypeError) ∨
  (¬ unscoped_docs_pair c1 c2 ∧ ∃ b, detect_dependencies git_show c1 c2 = Return b).
Proof.
  unfold detect_dependencies, unscoped_docs_pair.
  destruct (String.eqb_spec (type c1) "feat") as [Hf|Hf],
           (String.eqb_spec (type c1) "test") as [Hs|Hs],
           (String.eqb_spec (type c2) "docs") as [Hd|Hd],
           (String.eqb_spec (type c2) "test") as [Ht|Ht],
           (String.eqb_spec (type c2) "fix") as [Hx|Hx],
           (scope c1) as [sc|] eqn:Hsc;
    try (exfalso; congruence); simpl;
    repeat match goal with
           | |- context [if ?b then _ else _] => destruct b; simpl
           end;
    first [ left; split; [by split_and! | reflexivity]
          | right; split; [intros (? & ? & ?); congruence | by eauto] ].
Qed.

(** X7. The graph that [build_dependency_graph] returns has an edge
    (p, d) exactly for two different commits on which
    [detect_dependencies] answers [True]; so its edges stay within the
    indices of the commits and no commit depends on itself. *)
Theorem built_graph_edges commits g :
  build_dependency_graph git_show commits = Return g →
  (∀ p d, edge g p d ↔
     ∃ c1 c2, commits !! p = Some c1 ∧ commits !! d = Some c2 ∧ p ≠ d ∧
              detect_dependencies git_show c1 c2 = Return true) ∧
  edges_in_range (length commits) g ∧
  (∀ k, ¬ edge g k k).
Proof.
  intros Hb. pose proof (build_edges git_show commits g Hb) as He.
  split_and!; [done | |].
  - intros p d (c1 & c2 & Hp & Hd & _)%He.
    apply lookup_lt_Some in Hp, Hd. done.
  - intros k (c1 & c2 & _ & _ & Hne & _)%He. done.
Qed.

(** The two ways in which [build_dependency_graph] ends. *)
Lemma build_cases commits :
  ((∃ i j c1 c2, i ≠ j ∧ commits !! i = Some c1 ∧ commits !! j = Some c2 ∧
                 unscoped_docs_pair c1 c2) ∧
   build_dependency_graph git_show commits = Raise TypeError) ∨
  (¬ (∃ i j c1 c2, i ≠ j ∧ commits !! i = Some c1 ∧ commits !! j = Some c2 ∧
                   unscoped_docs_pair c1 c2) ∧
   ∃ g, build_dependency_graph git_show commits = Return g).
Proof.
  set (inner := fun (i : nat) (commit1 : Commit) =>
    fun (graph : gmap nat (gset nat)) '(j, commit2) =>
      if decide (i ≠ j) then
        dep ← detect_dependencies git_show commit1 commit2;
        Return (if (dep : bool) then add_edge graph j i else graph)
      else Return graph).
  assert (∀ i c1 g j c2,
            (i ≠ j ∧ unscoped_docs_pair c1 c2 ∧ inner i c1 g (j, c2) = Raise TypeError) ∨
            (¬ (i ≠ j ∧ unscoped_docs_pair c1 c2) ∧ ∃ g', inner i c1 g (j, c2) = Return g'))
    as Hinner.
  { intros i c1 g j c2. unfold inner. case_decide as Hij.
    - destruct (detect_dependencies_cases c1 c2) as [[Hbad ->]|[Hok [b ->]]]; simpl.
      + by left.
      + right. split; [by intros [_ ?] | by eauto].
    - right. split; [by intros [? _] | by eauto]. }
  assert (build_dependency_graph git_show commits =
          for_each (fun graph '(i, commit1) =>
                      for_each (inner i commit1) (enumerate commits) graph)
                   (enumerate commits) ∅) as -> by done.
  destruct (for_each_cases
              (fun graph '(i, commit1) =>
                 for_each (inner i commit1) (enumerate commits) graph)
              (fun ic => ∃ jc, jc ∈ enumerate commits ∧
                               ic.1 ≠ jc.1 ∧ unscoped_docs_pair ic.2 jc.2)
              (enumerate commits) ∅ TypeError) as [[Hex Hf]|[Hno [g Hf]]].
  { intros g1 [i c1] _. simpl.
    apply (for_each_cases (inner i c1)
             (fun jc => i ≠ jc.1 ∧ unscoped_docs_pair c1 jc.2)).
    intros g2 [j c2] _. simpl.
    destruct (Hinner i c1 g2 j c2) as [(? & ? & Hr)|[? Hr]]; [left | right]; done. }
  - left. split; [|done].
    destruct Hex as ([i c1] & Hi%elem_of_enumerate & [j c2] & Hj%elem_of_enumerate & Hij & Hbad).
    by exists i, j, c1, c2.
  - right. split; [|by eauto].
    intros (i & j & c1 & c2 & Hij & Hi & Hj & Hbad). destruct Hno.
    exists (i, c1). split; [by apply elem_of_enumerate|].
    exists (j, c2). split; [by apply elem_of_enumerate | done].
Qed.


(** X8. A feature without scope and a documentation commit, anywhere
    in the list and in either order, make [build_dependency_graph] end
    with [TypeError]: the docs rule evaluates [None in subject] for the
    pair, whatever the other commits are and whatever is staged. *)
Theorem build_fails_on_unscoped_feature commits i j c1 c2 :
  i ≠ j → commits !! i = Some c1 → commits !! j = Some c2 →
  unscoped_docs_pair c1 c2 →
  build_dependency_graph git_show commits = Raise TypeError.
Proof.
  intros Hij Hi Hj Hpair.
  destruct (build_cases commits) as [[_ ->]|[Hno _]]; [done|].
  destruct Hno. by exists i, j, c1, c2.
Qed.

(** X9. The three type rules never order two commits both ways: when
    no file of either commit imports from a file of the other,
    [detect_dependencies] does not answer [True] in both directions. *)
Theorem type_rules_one_way c1 c2 :
  imports_from git_show c1 c2 = false →
  imports_from git_show c2 c1 = false →
  ¬ (detect_dependencies git_show c1 c2 = Return true ∧
     detect_dependencies git_show c2 c1 = Return true).
Proof.
  unfold imports_from, detect_dependencies. intros -> ->.
  destruct (String.eqb_spec (type c1) "feat") as [Hf1|Hf1],
           (String.eqb_spec (type c1) "test") as [Ht1|Ht1],
           (String.eqb_spec (type c1) "docs") as [Hd1|Hd1],
           (String.eqb_spec (type c1) "fix") as [Hx1|Hx1];
    try (exfalso; congruence);
    destruct (String.eqb_spec (type c2) "feat") as [Hf2|Hf2],
             (String.eqb_spec (type c2) "test") as [Ht2|Ht2],
             (String.eqb_spec (type c2) "docs") as [Hd2|Hd2],
             (String.eqb_spec (type c2) "fix") as [Hx2|Hx2];
    try (exfalso; congruence); simpl;
    destruct (scope_eq (scope c1) (scope c2)), (scope_eq (scope c2) (scope c1));
    simpl; try (by intros [? ?]);
    destruct (scope c1), (scope c2); simpl;
    repeat match goal with
           | |- context [if ?b then _ else _] => destruct b; simpl
           end; by intros [? ?].
Qed.

(** X22. Files whose staged content cannot be read never give an
    import edge: when [git show] fails for every file of [c2], the
    import rule does not make [c2] depend on [c1]. *)
Theorem unreadable_files_import_nothing c1 c2 :
  (∀ f, f ∈ default [] (files c2) → git_show f = None) →
  imports_from git_show c1 c2 = false.
Proof.
  intros Hnone. unfold imports_from, any. apply not_true_is_false.
  intros (f2 & Hf2%list_elem_of_In & (f1 & _ & Himp)%existsb_exists)%existsb_exists.
  unfold has_import_dependency, run_git_show in Himp.
  rewrite (Hnone f2 Hf2) in Himp. discriminate.
Qed.

(** *** The plan *)

Lemma plan_entry_now commits order_ sq d idx ci c :
  commits !! ci = Some c → d !! ci = Some ∅ →
  plan_entry commits order_ (sq, d) (idx, ci) =
    Return ((sq ++ [ {| commit := c; order := idx + 1; commit_id := ci + 1;
                        original_id := ci; can_execute := now |} ])%list, d).
Proof.
  intros Hc Hd. unfold plan_entry, getitem. rewrite Hc, Hd.
  by rewrite decide_True by done.
Qed.

(** The annotation loop, run on an emptied dictionary, returns one
    entry per emitted commit. *)
Lemma plan_entries commits order_ deps' :
  (∀ k, k < length commits → deps' !! k = Some ∅) →
  (∀ k, k ∈ order_ → k < length commits) →
  ∃ plan deps'',
    for_each (plan_entry commits order_) (enumerate order_) ([], deps')
      = Return (plan, deps'') ∧
    Forall2 (entry_at commits) (enumerate order_) plan.
Proof.
  intros He Hr.
  assert (∀ its sq d,
            (∀ k, k < length commits → d !! k = Some ∅) →
            (∀ it, it ∈ its → it.2 < length commits) →
            ∃ plan d', for_each (plan_entry commits order_) its (sq, d)
                         = Return ((sq ++ plan)%list, d') ∧
                       Forall2 (entry_at commits) its plan) as Hloop.
  { induction its as [|[idx ci] its IH]; intros sq d Hd Hits; cbn [for_each].
    - exists [], d. by rewrite app_nil_r.
    - assert (ci < length commits) as Hci by (apply (Hits (idx, ci)); by left).
      destruct (lookup_lt_is_Some_2 commits ci Hci) as [c Hc].
      rewrite (plan_entry_now _ _ _ _ _ _ c Hc (Hd ci Hci)). cbn [Py.bind].
      destruct (IH (sq ++ [ {| commit := c; order := idx + 1; commit_id := ci + 1;
                               original_id := ci; can_execute := now |} ])%list d)
        as (plan & d' & Hf & Hall); [done | |].
      { intros it Hit. apply Hits. by right. }
      eexists (_ :: plan), d'. rewrite Hf, <- app_assoc. split; [done|].
      constructor; [|done]. by repeat split. }
  destruct (Hloop (enumerate order_) [] deps' He) as (plan & d' & Hf & Hall).
  { intros [idx ci] Hin%elem_of_enumerate. apply Hr. by eapply list_elem_of_lookup_2. }
  by exists plan, d'.
Qed.

Lemma lookup_enumerate {A : Type} (l : list A) i j x :
  enumerate l !! i = Some (j, x) ↔ j = i ∧ l !! i = Some x.
Proof.
  unfold enumerate.
  assert (∀ a i, combine (seq a (length l)) l !! i = Some (j, x) ↔
                 j = a + i ∧ l !! i = Some x) as H.
  { clear i. induction l as [|y l IH]; intros a i; simpl.
    - rewrite !lookup_nil. naive_solver.
    - destruct i as [|i]; simpl.
      + split; [intros [= <- <-]; split; [lia | done]|].
        intros [-> [= ->]]. by rewrite Nat.add_0_r.
      + rewrite IH. split; intros [-> ?]; (split; [lia | done]). }
  apply (H 0 i).
Qed.

Lemma entries_original_ids commits its plan :
  Forall2 (entry_at commits) its plan → map original_id plan = map snd its.
Proof.
  induction 1 as [|it e its plan (_ & _ & Ho & _) _ IH]; simpl; [done|].
  by rewrite Ho, IH.
Qed.

Lemma map_snd_enumerate {A : Type} (l : list A) : map snd (enumerate l) = l.
Proof.
  unfold enumerate. generalize 0.
  induction l as [|x l IH]; intros a; simpl; [done|]. by rewrite IH.
Qed.

(** What a plan returned by [create_sequence] comes from. *)
Lemma create_sequence_Return commits plan :
  create_sequence git_show commits = Return plan →
  ∃ g st, build_dependency_graph git_show commits = Return g ∧
          sort_inv (length commits) g st ∧
          length (result st) = length commits ∧
          Forall2 (entry_at commits) (enumerate (result st)) plan.
Proof.
  unfold create_sequence.
  destruct (build_dependency_graph git_show commits) as [g| | |]; simpl; try done.
  destruct (topological_sort_cases commits g) as (st & _ & Hinv & _ & ->).
  case_decide as Hlen; [done|]. simpl.
  destruct (plan_entries commits (result st) (dependencies st))
    as (plan' & d' & -> & Hall).
  - by eapply full_result_deps_empty.
  - intros k Hk. by eapply sort_inv_range.
  - simpl. intros [= <-]. by exists g, st.
Qed.

(** X10. [create_sequence] ends in one of three ways, decided by the
    graph: [TypeError] when the builder raises, the circular-dependency
    exit when the graph is not acyclic, and a plan when it is. The
    annotation loop itself never fails. *)
Theorem create_sequence_outcome commits :
  (build_dependency_graph git_show commits = Raise TypeError ∧
   create_sequence git_show commits = Raise TypeError) ∨
  (∃ g, build_dependency_graph git_show commits = Return g ∧ ¬ acyclic g ∧
        create_sequence git_show commits
          = SysExit 1 "Error: Circular dependency detected") ∨
  (∃ g plan, build_dependency_graph git_show commits = Return g ∧ acyclic g ∧
             create_sequence git_show commits = Return plan).
Proof.
  unfold create_sequence.
  destruct (build_cases commits) as [[_ Hb]|[_ [g Hb]]]; rewrite Hb; [by left|].
  right. assert (edges_in_range (length commits) g) as Hr.
  { intros p d (c1 & c2 & Hp & Hd & _)%(build_edges git_show commits g Hb).
    apply lookup_lt_Some in Hp, Hd. done. }
  destruct (topological_sort_cases commits g) as (st & _ & Hinv & Hq & Hts).
  simpl. rewrite Hts. case_decide as Hlen.
  - left. exists g. split_and!; [done | | done].
    intros Hac. by apply Hlen, (acyclic_full_result _ g).
  - right. simpl.
    destruct (plan_entries commits (result st) (dependencies st))
      as (plan & d' & -> & _).
    + by eapply full_result_deps_empty.
    + intros k Hk. by eapply sort_inv_range.
    + exists g, plan. split_and!; [done | | done].
      intros k Hk. apply (cycle_not_emitted _ _ _ _ Hinv Hk).
      rewrite (full_result_perm _ _ _ Hinv Hlen). apply elem_of_seq.
      apply (tc_edge_range _ _ _ _ Hr) in Hk. lia.
Qed.

(** X11. A plan returned by [create_sequence] lists every commit
    exactly once: the entry at 0-based position [i] has [order = i + 1],
    [commit_id = original_id + 1], carries the commit of index
    [original_id], and is annotated ['now']; the [original_id]s are a
    permutation of [0..N-1]. *)
Theorem plan_lists_every_commit commits plan :
  create_sequence git_show commits = Return plan →
  map original_id plan ≡ₚ seq 0 (length commits) ∧
  ∀ i e, plan !! i = Some e →
         order e = i + 1 ∧ commit_id e = original_id e + 1 ∧
         commits !! original_id e = Some (commit e) ∧ can_execute e = now.
Proof.
  intros (g & st & _ & Hinv & Hlen & Hall)%create_sequence_Return. split.
  - rewrite (entries_original_ids _ _ _ Hall), map_snd_enumerate.
    by eapply full_result_perm.
  - intros i e He.
    destruct (Forall2_lookup_r _ _ _ _ _ Hall He) as ([j ci] & Hit & Hent).
    apply lookup_enumerate in Hit as [-> _].
    destruct Hent as (Ho & Hc & Hoi & Hcm & Hn). simpl in *.
    rewrite Hoi. done.
Qed.

(** X12. In a plan returned by [create_sequence], a commit that
    depends on another in the built graph has the larger [order]. *)
Theorem plan_respects_edges commits g plan e1 e2 :
  build_dependency_graph git_show commits = Return g →
  create_sequence git_show commits = Return plan →
  e1 ∈ plan → e2 ∈ plan →
  edge g (original_id e1) (original_id e2) →
  order e1 < order e2.
Proof.
  intros Hb (g' & st & Hb' & Hinv & Hlen & Hall)%create_sequence_Return.
  rewrite Hb in Hb'. injection Hb' as <-.
  intros [i1 H1]%list_elem_of_lookup [i2 H2]%list_elem_of_lookup Hedge.
  destruct (Forall2_lookup_r _ _ _ _ _ Hall H1) as ([j1 c1] & Hit1 & Hent1).
  destruct (Forall2_lookup_r _ _ _ _ _ Hall H2) as ([j2 c2] & Hit2 & Hent2).
  apply lookup_enumerate in Hit1 as [-> Hr1], Hit2 as [-> Hr2].
  destruct Hent1 as (Ho1 & _ & Hoi1 & _), Hent2 as (Ho2 & _ & Hoi2 & _).
  simpl in *. subst c1 c2.
  destruct (result_respects_edge _ _ _ _ _ _ Hinv Hedge Hr2) as (i & Hlt & Hi).
  pose proof (NoDup_lookup _ _ _ _ (sort_inv_result_nodup _ _ _ Hinv) Hr1 Hi).
  rewrite Ho1, Ho2. lia.
Qed.

End WithGit.

Lemma build_fails_on_unscoped_feature_witness :
  build_dependency_graph mutual_imports
    [ {| type := "docs"; scope := Some "api"; subject := Some "describe the api";
         files := Some ["README.md"] |};
      {| type := "chore"; scope := None; subject := None; files := None |};
      {| type := "feat"; scope := None; subject := Some "add login";
         files := Some ["src/auth/login.py"] |} ]%string
    = Raise TypeError.
Proof.
  apply (build_fails_on_unscoped_feature mutual_imports _ 2 0
           {| type := "feat"; scope := None; subject := Some "add login";
              files := Some ["src/auth/login.py"%string] |}
           {| type := "docs"; scope := Some "api"; subject := Some "describe the api";
              files := Some ["README.md"%string] |}).
  - lia.
  - reflexivity.
  - reflexivity.
  - unfold unscoped_docs_pair. simpl. split_and!; reflexivity.
Defined.

Lemma built_graph_edges_witness :
  (∀ p d, edge {[ 1 := {[0]} ]} p d ↔
     ∃ c1 c2, feature_and_test !! p = Some c1 ∧ feature_and_test !! d = Some c2 ∧
              p ≠ d ∧ detect_dependencies no_diff c1 c2 = Return true) ∧
  edges_in_range (length feature_and_test) {[ 1 := {[0]} ]} ∧
  (∀ k, ¬ edge {[ 1 := {[0]} ]} k k).
Proof.
  apply (built_graph_edges no_diff feature_and_test {[ 1 := {[0]} ]}).
  vm_compute. reflexivity.
Defined.

Lemma type_rules_one_way_witness :
  ¬ (detect_dependencies no_diff (descriptor "feat" (Some "auth") None)
                                 (descriptor "test" (Some "auth") None) = Return true ∧
     detect_dependencies no_diff (descriptor "test" (Some "auth") None)
                                 (descriptor "feat" (Some "auth") None) = Return true).
Proof.
  apply (type_rules_one_way no_diff (descriptor "feat" (Some "auth") None)
                                    (descriptor "test" (Some "auth") None));
    reflexivity.
Defined.

Lemma unreadable_files_import_nothing_witness :
  imports_from no_diff
    {| type := "chore"; scope := None; subject := None; files := Some ["a.py"%string] |}
    {| type := "chore"; scope := None; subject := None; files := Some ["b.py"%string] |}
  = false.
Proof.
  apply (unreadable_files_import_nothing no_diff). by intros f _.
Defined.

Lemma plan_lists_every_commit_witness :
  map original_id
    [ {| commit := descriptor "feat" (Some "auth") (Some "add login");
         order := 1; commit_id := 1; original_id := 0; can_execute := now |};
      {| commit := descriptor "test" (Some "auth") (Some "test login");
         order := 2; commit_id := 2; original_id := 1; can_execute := now |} ]
    ≡ₚ seq 0 (length feature_and_test) ∧
  ∀ i e,
    [ {| commit := descriptor "feat" (Some "auth") (Some "add login");
         order := 1; commit_id := 1; original_id := 0; can_execute := now |};
      {| commit := descriptor "test" (Some "auth") (Some "test login");
         order := 2; commit_id := 2; original_id := 1; can_execute := now |} ] !! i
      = Some e →
    order e = i + 1 ∧ commit_id e = original_id e + 1 ∧
    feature_and_test !! original_id e = Some (commit e) ∧ can_execute e = now.
Proof.
  apply (plan_lists_every_commit no_diff feature_and_test). vm_compute. reflexivity.
Defined.

Lemma plan_respects_edges_witness :
  order {| commit := descriptor "feat" (Some "auth") (Some "add login");
           order := 1; commit_id := 1; original_id := 0; can_execute := now |}
  < order {| commit := descriptor "test" (Some "auth") (Some "test login");
             order := 2; commit_id := 2; original_id := 1; can_execute := now |}.
Proof.
  apply (plan_respects_edges no_diff feature_and_test {[ 1 := {[0]} ]}
    [ {| commit := descriptor "feat" (Some "auth") (Some "add login");
         order := 1; commit_id := 1; original_id := 0; can_execute := now |};
      {| commit := descriptor "test" (Some "auth") (Some "test login");
         order := 2; commit_id := 2; original_id := 1; can_execute := now |} ]).
  - vm_compute. reflexivity.
  - vm_compute. reflexivity.
  - by left.
  - right. by left.
  - apply edge_lookup. exists {[0]}. split; [done | set_solver].
Defined.

End BuildMore.

(** ** More on the analyzer *)



Module AnalyzerMore.

(** X13. Whatever the path and the diff, the inferred type is one of
    the ten conventional commit types of [COMMIT_TYPES]. *)
Theorem detect_type_is_conventional file_path diff :
  detect_type_from_diff file_path diff ∈ COMMIT_TYPES.
Proof.
  unfold detect_type_from_diff, COMMIT_TYPES.
  repeat match goal with
         | |- context [if ?b then _ else _] => destruct b
         end;
    apply list_elem_of_In; simpl; tauto.
Qed.

(** *** Scopes *)

Lemma has_char_cons c a s :
  has_char c (String a s) = Ascii.eqb c a || has_char c s.
Proof.
  unfold has_char. simpl. destruct (ascii_dec c a) as [->|Hne].
  - rewrite Ascii.eqb_refl. by destruct s.
  - apply Ascii.eqb_neq in Hne. by rewrite Hne.
Qed.

Lemma has_char_empty c : has_char c EmptyString = false.
Proof. reflexivity. Qed.

Lemma split_nonempty sep s : split sep s ≠ [].
Proof.
  destruct s as [|a s]; simpl; [done|].
  destruct (Ascii.eqb a sep); [done|]. by destruct (split sep s).
Qed.

(** No part of [s.split(sep)] contains the separator, nor any character
    that [s] does not contain. *)
Lemma split_parts sep c s :
  (c = sep ∨ has_char c s = false) →
  Forall (fun w => has_char c w = false) (split sep s).
Proof.
  induction s as [|a s IH]; intros Hc; simpl.
  - by repeat constructor.
  - assert (c = sep ∨ has_char c s = false) as Hs.
    { destruct Hc as [?|Hc]; [by left|]. right.
      rewrite has_char_cons in Hc. by apply orb_false_elim in Hc as [_ ?]. }
    specialize (IH Hs). destruct (Ascii.eqb_spec a sep) as [->|Hne].
    + constructor; [done | exact IH].
    + pose proof (split_nonempty sep s). destruct (split sep s) as [|w ws]; [done|].
      apply Forall_cons in IH as [Hw Hws]. constructor; [|done].
      rewrite has_char_cons, Hw, orb_false_r. apply Ascii.eqb_neq.
      destruct Hc as [->|Hc]; [by intros ->|].
      rewrite has_char_cons in Hc. apply orb_false_elim in Hc as [Hc _].
      by apply Ascii.eqb_neq in Hc.
Qed.

Lemma hd_split_clean sep c part :
  (c = sep ∨ has_char c part = false) →
  has_char c (hd EmptyString (split sep part)) = false.
Proof.
  intros Hc. pose proof (split_parts sep c part Hc) as Hall.
  destruct (split sep part) as [|w ws]; [done|]. by apply Forall_cons in Hall as [? _].
Qed.

Lemma first_scope_clean c parts :
  has_char c "root" = false →
  (c = "."%char ∨ Forall (fun w => has_char c w = false) parts) →
  has_char c (first_scope parts) = false.
Proof.
  intros Hroot Hc. induction parts as [|part parts IH]; simpl; [done|].
  destruct (_ && _ && _).
  - apply hd_split_clean. destruct Hc as [?|Hall]; [by left|].
    right. by apply Forall_cons in Hall as [? _].
  - apply IH. destruct Hc as [?|Hall]; [by left|].
    right. by apply Forall_cons in Hall as [_ ?].
Qed.

(** X14. The scope extracted from a path contains neither a slash nor
    a dot, whatever the path. *)
Theorem scope_has_no_separator file_path :
  has_char "/" (extract_scope_from_path file_path) = false ∧
  has_char "." (extract_scope_from_path file_path) = false.
Proof.
  unfold extract_scope_from_path. split; apply first_scope_clean; try reflexivity.
  - right. apply split_parts. by left.
  - by left.
Qed.

(** *** The verdict *)

Lemma two_keys_length (d : list (string * list string)) k1 k2 :
  k1 ≠ k2 → k1 ∈ keys d → k2 ∈ keys d → 1 < length d.
Proof.
  intros Hne H1 H2. unfold keys in *.
  destruct d as [|[a va] [|[b vb] d]]; simpl in *.
  - by apply elem_of_nil in H1.
  - apply list_elem_of_singleton in H1, H2. congruence.
  - lia.
Qed.

Lemma mixed_concerns_shape types scopes cs :
  detect_mixed_concerns types scopes = Return cs →
  cs ⊆ ["Feature implementation mixed with refactoring"%string;
        "Feature implementation mixed with style changes"%string] ∧
  (cs ≠ [] →
   has_key types "feat" = true ∧
   (has_key types "refactor" = true ∨ has_key types "style" = true) ∧
   1 < length types).
Proof.
  unfold detect_mixed_concerns.
  rewrite (set_of_lists_filter (fun k => contains k "test") scopes).
  rewrite (set_of_lists_filter (fun k => negb (contains k "test")) scopes).
  destruct (has_key types "feat") eqn:Hf, (has_key types "refactor") eqn:Hr,
    (has_key types "style") eqn:Hs, (has_key types "test");
    repeat match goal with
           | |- context [existsb ?p (keys scopes)] => destruct (existsb p (keys scopes))
           end;
    simpl; intros [= <-]; (split; [set_solver|]); try done; intros _;
    apply has_key_elem_of in Hf;
    (split; [done|]); (split; [tauto|]);
    try (apply has_key_elem_of in Hr; by apply (two_keys_length types "feat" "refactor"));
    try (apply has_key_elem_of in Hs; by apply (two_keys_length types "feat" "style")).
Qed.

(** X15. [detect_mixed_concerns] never reports "Tests for multiple
    unrelated implementations", and what it reports presupposes two
    different types: a feature next to refactoring or style changes. *)
Theorem mixed_concerns_need_two_types types scopes cs :
  detect_mixed_concerns types scopes = Return cs →
  ("Tests for multiple unrelated implementations"%string ∉ cs) ∧
  (cs ≠ [] →
   has_key types "feat" = true ∧
   (has_key types "refactor" = true ∨ has_key types "style" = true) ∧
   1 < length types).
Proof.
  intros Hcs. destruct (mixed_concerns_shape _ _ _ Hcs) as [Hsub Hlen].
  split; [|done]. intros Hin. apply Hsub in Hin.
  apply elem_of_cons in Hin as [?|Hin]; [discriminate|].
  apply elem_of_cons in Hin as [?|Hin]; [discriminate|]. by apply elem_of_nil in Hin.
Qed.

Lemma mixed_concerns_need_two_types_witness :
  ("Tests for multiple unrelated implementations"%string
     ∉ ["Feature implementation mixed with refactoring"%string]) ∧
  (["Feature implementation mixed with refactoring"%string] ≠ [] →
   has_key [("feat"%string, ["a.py"%string]); ("refactor"%string, ["b.py"%string])]
           "feat" = true ∧
   (has_key [("feat"%string, ["a.py"%string]); ("refactor"%string, ["b.py"%string])]
            "refactor" = true ∨
    has_key [("feat"%string, ["a.py"%string]); ("refactor"%string, ["b.py"%string])]
            "style" = true) ∧
   1 < length [("feat"%string, ["a.py"%string]); ("refactor"%string, ["b.py"%string])]).
Proof.
  apply (mixed_concerns_need_two_types
           [("feat"%string, ["a.py"%string]); ("refactor"%string, ["b.py"%string])]
           [("a"%string, ["a.py"%string]); ("b"%string, ["b.py"%string])]).
  reflexivity.
Defined.

Section WithGit.

Variables git_diff_cached git_diff : string → option string.

(** What [analyze] returns on a non-empty change set, spelled out. *)
Lemma analyze_Return_inv threshold_ files b reason om :
  files ≠ [] →
  analyze git_diff_cached git_diff threshold_ files = Return (b, reason, om) →
  let types := collect (file_type git_diff_cached git_diff) files [] in
  let scopes := collect extract_scope_from_path files [] in
  ∃ cs, detect_mixed_concerns types scopes = Return cs ∧
    om = Some {| file_count := length files;
                 types_detected := keys types;
                 type_counts := map (fun kv => (fst kv, length (snd kv))) types;
                 scopes_detected := keys scopes;
                 scope_counts := map (fun kv => (fst kv, length (snd kv))) scopes;
                 concerns := cs;
                 threshold := threshold_ |} ∧
    let reasons := (split_reasons types scopes (length files) threshold_ ++
                    match cs with [] => [] | _ :: _ => [concerns_reason cs] end)%list in
    (b = true ↔ reasons ≠ []) ∧
    (b = false → reason = "Changes are atomic - single logical unit"%string).
Proof.
  intros Hne. destruct files as [|f0 fs]; [done|].
  unfold analyze. rewrite record_files_split. cbv beta iota zeta.
  destruct (detect_mixed_concerns _ _) as [cs| | |]; [|done..].
  simpl. intros Hret. exists cs. split; [done|].
  destruct cs as [|c cs]; [rewrite app_nil_r|];
    destruct (split_reasons _ _ _ _) as [|r0 rs]; simpl in Hret;
    injection Hret as <- <- <-; (split; [done|]); (split; [by split | done]).
Qed.

Lemma no_test_key files :
  (∀ f, f ∈ files → file_type git_diff_cached git_diff f ≠ "test"%string) →
  has_key (collect (file_type git_diff_cached git_diff) files []) "test" = false.
Proof.
  intros Hno. destruct (has_key _ _) eqn:Ht; [|done].
  destruct (collect_keys (file_type git_diff_cached git_diff) files []) as [_ Hin].
  apply has_key_elem_of, Hin in Ht as [Ht%elem_of_nil|(f & Hf & Hty)]; [done|].
  by destruct (Hno f Hf).
Qed.

Lemma analyze_returns_without_test threshold_ files :
  files ≠ [] →
  (∀ f, f ∈ files → file_type git_diff_cached git_diff f ≠ "test"%string) →
  ∃ b reason om,
    analyze git_diff_cached git_diff threshold_ files = Return (b, reason, om).
Proof.
  intros Hne Hno. destruct files as [|f0 fs]; [done|].
  unfold analyze. rewrite record_files_split. cbv beta iota zeta.
  destruct (detect_mixed_concerns_no_test _
              (collect extract_scope_from_path (f0 :: fs) []) (no_test_key _ Hno))
    as [cs ->].
  simpl. destruct (match cs with [] => _ | _ :: _ => _ end); by eauto.
Qed.

(** X16. On a non-empty change set [analyze] ends in [TypeError]
    exactly when the type inferred for some changed file is [test];
    otherwise it returns a verdict with its metrics. *)
Theorem analyze_raises_iff_test threshold_ files :
  files ≠ [] →
  (analyze git_diff_cached git_diff threshold_ files = Raise TypeError ↔
   ∃ f, f ∈ files ∧ file_type git_diff_cached git_diff f = "test"%string) ∧
  (analyze git_diff_cached git_diff threshold_ files = Raise TypeError ∨
   ∃ b reason m,
     analyze git_diff_cached git_diff threshold_ files = Return (b, reason, Some m)).
Proof.
  intros Hne.
  destruct (decide (Exists (fun f => file_type git_diff_cached git_diff f = "test"%string)
                           files)) as [Hex|Hno].
  - apply Exists_exists in Hex as (f & Hf & Hty).
    rewrite (analyze_raises_with_test git_diff_cached git_diff threshold_ files f Hf Hty).
    split; [|by left]. split; [by eauto | done].
  - assert (∀ f, f ∈ files → file_type git_diff_cached git_diff f ≠ "test"%string)
      as Hno'.
    { intros f Hf Hty. apply Hno, Exists_exists. by eauto. }
    destruct (analyze_returns_without_test threshold_ files Hne Hno')
      as (b & r & om & Hret).
    destruct (analyze_Return_inv _ _ _ _ _ Hne Hret) as (cs & _ & -> & _).
    rewrite Hret. split; [|right; by eauto]. split; [done|].
    intros (f & Hf & Hty). by destruct (Hno' f Hf).
Qed.

(** X17. When [analyze] returns on a non-empty change set, the verdict
    can be read off the metrics returned with it: [should_split] holds
    exactly when more than one type or more than one scope was
    detected, the file count exceeds the threshold, or a concern was
    found; a negative verdict always carries the fixed text. *)
Theorem verdict_matches_metrics threshold_ files b reason m :
  files ≠ [] →
  analyze git_diff_cached git_diff threshold_ files = Return (b, reason, Some m) →
  (b = true ↔ 1 < length (types_detected m) ∨ 1 < length (scopes_detected m) ∨
              (threshold m < Z.of_nat (file_count m))%Z ∨ concerns m ≠ []) ∧
  (b = false → reason = "Changes are atomic - single logical unit"%string).
Proof.
  intros Hne Hret.
  destruct (analyze_Return_inv _ _ _ _ _ Hne Hret) as (cs & _ & [= ->] & Hb & Hr).
  split; [|done]. rewrite Hb. simpl. unfold split_reasons, keys.
  rewrite !length_map.
  destruct (Nat.ltb_spec 1 (length (collect (file_type git_diff_cached git_diff) files []))),
           (Nat.ltb_spec 1 (length (collect extract_scope_from_path files []))),
           (Z.ltb_spec threshold_ (Z.of_nat (length files))), cs; simpl;
    (split;
     [ intros Hre; try (by left); try (by right; left);
       try (by right; right; left); try (by right; right; right); by destruct Hre
     | intros Hor; try done; destruct Hor as [?|[?|[?|?]]]; try lia; done ]).
Qed.

(** *** The histograms *)

Lemma dict_append_total d k v :
  sum_list (map (fun kv => length (snd kv)) (dict_append d k v)) =
  S (sum_list (map (fun kv : string * list string => length (snd kv)) d)).
Proof.
  induction d as [|[k' vs] d IH]; simpl; [done|].
  destruct (String.eqb k' k); simpl.
  - rewrite length_app. simpl. lia.
  - rewrite IH. lia.
Qed.

Lemma dict_append_nonempty d k v :
  Forall (fun kv : string * list string => 0 < length (snd kv)) d →
  Forall (fun kv : string * list string => 0 < length (snd kv)) (dict_append d k v).
Proof.
  induction 1 as [|[k' vs] d Hk Hd IH]; simpl.
  - constructor; [simpl; lia | constructor].
  - destruct (String.eqb k' k); constructor; simpl in *; try done.
    rewrite length_app. simpl. lia.
Qed.

Lemma collect_total key files d :
  sum_list (map (fun kv => length (snd kv)) (collect key files d)) =
  sum_list (map (fun kv : string * list string => length (snd kv)) d) + length files.
Proof.
  unfold collect. revert d. induction files as [|f files IH]; intros d; simpl; [lia|].
  rewrite IH, dict_append_total. lia.
Qed.

Lemma collect_nonempty key files d :
  Forall (fun kv : string * list string => 0 < length (snd kv)) d →
  Forall (fun kv : string * list string => 0 < length (snd kv)) (collect key files d).
Proof.
  unfold collect. revert d. induction files as [|f files IH]; intros d Hd; simpl; [done|].
  by apply IH, dict_append_nonempty.
Qed.

(** X18. The metrics returned by [analyze] are histograms of the
    change set: every file is counted under exactly one type and one
    scope, so the counts of either histogram add up to the number of
    files; no type or scope is listed twice, none has count zero, and
    the histograms are keyed in the order of [types_detected] and
    [scopes_detected]. *)
Theorem metrics_are_histograms threshold_ files b reason m :
  files ≠ [] →
  analyze git_diff_cached git_diff threshold_ files = Return (b, reason, Some m) →
  file_count m = length files ∧ threshold m = threshold_ ∧
  NoDup (types_detected m) ∧ NoDup (scopes_detected m) ∧
  map fst (type_counts m) = types_detected m ∧
  map fst (scope_counts m) = scopes_detected m ∧
  total (type_counts m) = length files ∧
  total (scope_counts m) = length files ∧
  Forall (fun kn => 0 < snd kn) (type_counts m) ∧
  Forall (fun kn => 0 < snd kn) (scope_counts m).
Proof.
  intros Hne Hret.
  destruct (analyze_Return_inv _ _ _ _ _ Hne Hret) as (cs & _ & [= ->] & _).
  simpl. unfold total, keys. rewrite !map_map. simpl.
  split_and!; try done.
  - apply (collect_keys (file_type git_diff_cached git_diff) files []), NoDup_nil_2.
  - apply (collect_keys extract_scope_from_path files []), NoDup_nil_2.
  - by rewrite collect_total.
  - by rewrite collect_total.
  - apply Forall_map. apply (collect_nonempty _ _ []). constructor.
  - apply Forall_map. apply (collect_nonempty _ _ []). constructor.
Qed.

(** X19. A change set in which two files differ in inferred type or in
    scope, and no file is of type [test], always gets the verdict
    [should_split = true]. *)
Theorem different_types_or_scopes_split threshold_ files f1 f2 :
  f1 ∈ files → f2 ∈ files →
  (∀ f, f ∈ files → file_type git_diff_cached git_diff f ≠ "test"%string) →
  file_type git_diff_cached git_diff f1 ≠ file_type git_diff_cached git_diff f2 ∨
  extract_scope_from_path f1 ≠ extract_scope_from_path f2 →
  ∃ reason m,
    analyze git_diff_cached git_diff threshold_ files = Return (true, reason, Some m).
Proof.
  intros Hf1 Hf2 Hno Hdiff.
  assert (files ≠ []) as Hne by (intros ->; by apply elem_of_nil in Hf1).
  destruct (analyze_returns_without_test threshold_ files Hne Hno) as (b & r & om & Hret).
  destruct (analyze_Return_inv _ _ _ _ _ Hne Hret) as (cs & _ & -> & Hb & _).
  exists r. eexists. rewrite Hret. f_equal. f_equal. f_equal. apply Hb.
  unfold split_reasons.
  destruct (collect_keys (file_type git_diff_cached git_diff) files []) as [_ Ht].
  destruct (collect_keys extract_scope_from_path files []) as [_ Hs].
  destruct Hdiff as [Hd|Hd].
  - assert (1 < length (collect (file_type git_diff_cached git_diff) files [])) as Hl.
    { apply (two_keys_length _ _ _ Hd); apply Ht; right; by eauto. }
    apply Nat.ltb_lt in Hl. rewrite Hl. done.
  - assert (1 < length (collect extract_scope_from_path files [])) as Hl.
    { apply (two_keys_length _ _ _ Hd); apply Hs; right; by eauto. }
    apply Nat.ltb_lt in Hl. rewrite Hl.
    destruct (1 <? length (collect (file_type git_diff_cached git_diff) files []))%nat;
      simpl; done.
Qed.

(** X20. A single changed file that is not of type [test] is always
    judged atomic when the threshold is at least 1. *)
Theorem single_file_is_atomic threshold_ f :
  file_type git_diff_cached git_diff f ≠ "test"%string → (1 ≤ threshold_)%Z →
  ∃ m, analyze git_diff_cached git_diff threshold_ [f]
         = Return (false, "Changes are atomic - single logical unit"%string, Some m).
Proof.
  intros Hty Ht.
  assert ([f] ≠ []) as Hne by done.
  assert (∀ f', f' ∈ [f] → file_type git_diff_cached git_diff f' ≠ "test"%string)
    as Hno by (by intros f' ->%list_elem_of_singleton).
  destruct (analyze_returns_without_test threshold_ [f] Hne Hno) as (b & r & om & Hret).
  destruct (analyze_Return_inv _ _ _ _ _ Hne Hret) as (cs & Hcs & -> & Hb & Hr).
  destruct (mixed_concerns_shape _ _ _ Hcs) as [_ Hlen].
  assert (cs = []) as ->.
  { destruct cs as [|c cs]; [done|]. unfold collect in Hlen. simpl in Hlen.
    destruct Hlen as (_ & _ & Hlen); [done | lia]. }
  assert (b = false) as ->.
  { destruct b; [|done]. exfalso. destruct Hb as [Hb _]. apply Hb; [done|].
    assert ((threshold_ <? Z.of_nat (length [f]))%Z = false) as Hz.
    { apply Z.ltb_ge. simpl. lia. }
    unfold split_reasons. rewrite Hz. reflexivity. }
  eexists. rewrite Hret. by rewrite Hr.
Qed.

End WithGit.

(** X21. [get_changed_files] lists names only: no entry is empty, no
    entry contains a line break, and the list is no longer than the
    non-empty lines of the two [git diff --name-only] outputs taken
    together. *)
Theorem changed_files_are_names staged unstaged files :
  get_changed_files staged unstaged files →
  Forall (fun f => f ≠ EmptyString ∧ has_char LF f = false) files ∧
  length files ≤ length (changed_names staged unstaged).
Proof.
  intros [Hnd Hin]. split.
  - apply Forall_forall. intros f Hf%Hin. unfold changed_names in Hf.
    rewrite elem_of_app, !list_elem_of_In, !filter_In in Hf.
    rewrite negb_true_iff, String.eqb_neq in Hf.
    destruct Hf as [[Hf Hne]|[Hf Hne]]; (split; [done|]).
    + pose proof (split_parts LF LF staged (or_introl eq_refl)) as Hall.
      rewrite Forall_forall in Hall. apply Hall. by apply list_elem_of_In.
    + pose proof (split_parts LF LF unstaged (or_introl eq_refl)) as Hall.
      rewrite Forall_forall in Hall. apply Hall. by apply list_elem_of_In.
  - apply submseteq_length, NoDup_submseteq; [done|]. intros f. apply Hin.
Qed.

Lemma changed_files_are_names_witness :
  Forall (fun f => f ≠ EmptyString ∧ has_char LF f = false)
         ["README.md"%string; "src/a/x.py"%string] ∧
  length ["README.md"%string; "src/a/x.py"%string]
    ≤ length (changed_names staged_two EmptyString).
Proof.
  apply (changed_files_are_names staged_two EmptyString).
  apply staged_two_listing; [|reflexivity].
  apply (bool_decide_unpack _). vm_compute. exact I.
Defined.

Lemma analyze_raises_iff_test_witness :
  (analyze no_diff no_diff 10 scenario_A = Raise TypeError ↔
   ∃ f, f ∈ scenario_A ∧ file_type no_diff no_diff f = "test"%string) ∧
  (analyze no_diff no_diff 10 scenario_A = Raise TypeError ∨
   ∃ b reason m, analyze no_diff no_diff 10 scenario_A = Return (b, reason, Some m)).
Proof. apply (analyze_raises_iff_test no_diff no_diff 10 scenario_A). discriminate. Defined.

Lemma verdict_matches_metrics_witness :
  (false = true ↔
     1 < length ["chore"%string] ∨ 1 < length ["a"%string] ∨
     (10 < Z.of_nat 1)%Z ∨ @nil string ≠ []) ∧
  (false = false →
   "Changes are atomic - single logical unit"%string
     = "Changes are atomic - single logical unit"%string).
Proof.
  apply (verdict_matches_metrics no_diff no_diff 10 ["src/a/x.py"%string] false
           "Changes are atomic - single logical unit"
           {| file_count := 1; types_detected := ["chore"%string];
              type_counts := [("chore"%string, 1)];
              scopes_detected := ["a"%string]; scope_counts := [("a"%string, 1)];
              concerns := []; threshold := 10 |}).
  - discriminate.
  - vm_compute. reflexivity.
Defined.

Lemma metrics_are_histograms_witness :
  1 = length ["src/a/x.py"%string] ∧ 10%Z = 10%Z ∧
  NoDup ["chore"%string] ∧ NoDup ["a"%string] ∧
  map fst [("chore"%string, 1)] = ["chore"%string] ∧
  map fst [("a"%string, 1)] = ["a"%string] ∧
  total [("chore"%string, 1)] = length ["src/a/x.py"%string] ∧
  total [("a"%string, 1)] = length ["src/a/x.py"%string] ∧
  Forall (fun kn : string * nat => 0 < snd kn) [("chore"%string, 1)] ∧
  Forall (fun kn : string * nat => 0 < snd kn) [("a"%string, 1)].
Proof.
  apply (metrics_are_histograms no_diff no_diff 10 ["src/a/x.py"%string] false
           "Changes are atomic - single logical unit"
           {| file_count := 1; types_detected := ["chore"%string];
              type_counts := [("chore"%string, 1)];
              scopes_detected := ["a"%string]; scope_counts := [("a"%string, 1)];
              concerns := []; threshold := 10 |}).
  - discriminate.
  - vm_compute. reflexivity.
Defined.

Lemma different_types_or_scopes_split_witness :
  ∃ reason m,
    analyze no_diff no_diff 10 ["README.md"%string; "src/a/x.py"%string]
      = Return (true, reason, Some m).
Proof.
  apply (different_types_or_scopes_split no_diff no_diff 10
           ["README.md"%string; "src/a/x.py"%string] "README.md" "src/a/x.py").
  - by left.
  - right. by left.
  - intros f Hf.
    apply elem_of_cons in Hf as [->|Hf]; [vm_compute; discriminate|].
    apply elem_of_cons in Hf as [->|Hf]; [vm_compute; discriminate|].
    by apply elem_of_nil in Hf.
  - left. vm_compute. discriminate.
Defined.

Lemma single_file_is_atomic_witness :
  ∃ m, analyze no_diff no_diff 10 ["src/a/x.py"%string]
         = Return (false, "Changes are atomic - single logical unit"%string, Some m).
Proof.
  apply (single_file_is_atomic no_diff no_diff 10 "src/a/x.py").
  - vm_compute. discriminate.
  - lia.
Defined.

End AnalyzerMore.

(** ** Runs that differ in the iteration order of their sets *)

Module Determinism.




(** *** The builder *)

Section WithGit.

Variable git_show : string → option string.



(** *** The annotation *)







End WithGit.








End Determinism.
